(** * Convolution demo: a shallow embedding of [convolution_demo.py]

    The script builds a synthetic spike train and three normalised kernels,
    convolves them once with [np.convolve(..., mode="same")] and drives a
    per-frame callback that repositions a flipped copy of the kernel over the
    signal.

    Conventions of the embedding:
    - a one-dimensional [float64] array is a [list R]: arithmetic is the exact
      arithmetic of the reals, rounding is not modelled; where a statement
      turns on rounding, the same lines are also given in binary64
      ([np64], on Rocq's primitive floats), as far as they use the four
      operations only ([exp] is the C library's and has no model);
    - Python integers are [Z]; [//] is [Z.div] (floor division);
    - an operation that raises ([IndexError], [ValueError], [KeyError])
      returns [None] in the option monad of stdpp;
    - dictionaries are [gmap string _]. *)

From Stdlib Require Import Reals Lra ZArith Lia.
From Stdlib Require PrimFloat Uint63.
From stdpp Require Import gmap strings list.

Local Open Scope Z_scope.

(** ** Python indexing and slicing on lists *)

Section py_seq.
Context {A : Type}.

(** [a[i]] with a possibly negative index; out of range raises. *)
Definition norm_index (len i : Z) : option nat :=
  if decide (0 <= i < len) then Some (Z.to_nat i)
  else if decide (- len <= i < 0) then Some (Z.to_nat (i + len))
  else None.

Definition getitem (a : list A) (i : Z) : option A :=
  n ← norm_index (Z.of_nat (length a)) i; a !! n.

Definition setitem (a : list A) (i : Z) (x : A) : option (list A) :=
  n ← norm_index (Z.of_nat (length a)) i; Some (<[n:=x]> a).

(** [a[idx] = x] for a list of integer indices (one store per index). *)
Definition setitems (a : list A) (idx : list Z) (x : A) : option (list A) :=
  foldl (fun acc i => a' ← acc; setitem a' i x) (Some a) idx.

(** A slice bound: negative bounds count from the end, then the bound is
    clamped into [0, len]; slicing itself never raises. *)
Definition slice_bound (len i : Z) : nat :=
  Z.to_nat (Z.min len (Z.max 0 (if decide (i < 0) then i + len else i))).

Definition slice_lo (a : list A) (start : option Z) : nat :=
  from_option (slice_bound (Z.of_nat (length a))) 0%nat start.

Definition slice_hi (a : list A) (stop : option Z) : nat :=
  from_option (slice_bound (Z.of_nat (length a))) (length a) stop.

(** [a[start:stop]] *)
Definition slice (a : list A) (start stop : option Z) : list A :=
  let lo := slice_lo a start in
  let hi := slice_hi a stop in
  take (hi - lo) (drop lo a).

(** [a[start:stop] = x] for a scalar [x]. *)
Definition setslice_scalar (a : list A) (start stop : option Z) (x : A)
  : list A :=
  let lo := slice_lo a start in
  let hi := slice_hi a stop in
  take lo a ++ replicate (hi - lo) x ++ drop (lo + (hi - lo)) a.

(** [a[start:stop] = v] for an array [v]: the shapes must agree, except
    that a one-element [v] is broadcast; anything else raises. *)
Definition setslice (a : list A) (start stop : option Z) (v : list A)
  : option (list A) :=
  let lo := slice_lo a start in
  let hi := slice_hi a stop in
  let n := (hi - lo)%nat in
  if decide (length v = n) then
    Some (take lo a ++ v ++ drop (lo + n) a)
  else
    match v with
    | [x] => Some (take lo a ++ replicate n x ++ drop (lo + n) a)
    | _ => None
    end.
End py_seq.

(** [range(n)] *)
Definition range (n : Z) : list Z := seqZ 0 n.

(** ** The part of numpy the script uses *)

Module np.
Definition zeros (n : Z) : list R := replicate (Z.to_nat n) 0%R.

Definition zeros_like (a : list R) : list R := replicate (length a) 0%R.

Definition sum (a : list R) : R := foldr Rplus 0%R a.

Definition flip {A} (a : list A) : list A := reverse a.

(** [np.arange(n)], as floats once it meets a float operand. *)
Definition arange (n : Z) : list R := IZR <$> seqZ 0 n.

(** [np.linspace(start, stop, num)]: [num] evenly spaced samples, both
    end points included, in exact arithmetic ([np64.linspace] has the
    rounding). *)
Definition linspace (start stop : R) (num : Z) : list R :=
  let step := ((stop - start) / IZR (num - 1))%R in
  (fun i => (start + IZR i * step)%R) <$> seqZ 0 num.

Definition exp (a : list R) : list R := Rtrigo_def.exp <$> a.

(** elementwise operations against a scalar *)
Definition neg (a : list R) : list R := Ropp <$> a.
Definition square (a : list R) : list R := (fun x => x ^ 2)%R <$> a.
Definition div (a : list R) (s : R) : list R := (fun x => x / s)%R <$> a.
Definition mul (a : list R) (s : R) : list R := (fun x => x * s)%R <$> a.

(** The full discrete convolution, [len a + len v - 1] samples:
    [full[n] = sum_m a[m] * v[n - m]]. *)
Definition convolve_full (a v : list R) : list R :=
  (fun n => sum ((fun m => (nth m a 0 * nth (n - m) v 0)%R) <$> seq 0 (S n)))
    <$> seq 0 (length a + length v - 1).

(** [np.convolve(a, v, mode="same")]: empty operands raise, the longer
    operand comes first, and the result is the centred part of the full
    convolution, as long as the longer operand. *)
Definition convolve_same (a v : list R) : option (list R) :=
  if decide (length a = 0%nat ∨ length v = 0%nat) then None
  else
    let '(a, v) := if decide (length a < length v)%nat then (v, a) else (a, v) in
    let n := length v in
    Some (take (length a) (drop (n - 1 - n / 2) (convolve_full a v))).
End np.

(** The same in binary64, for the lines that compute the sample points of
    the Gaussian kernel. *)
Module np64.
Import PrimFloat.

Definition of_Z (i : Z) : float := of_uint63 (Uint63.of_Z i).

(** [np.linspace(start, stop, num)] as numpy computes it: the indices
    [0 .. num - 1] are multiplied by the step [(stop - start) / (num - 1)]
    (divided by [num - 1] and multiplied by [stop - start] should the step
    round to zero), [start] is added, and the last sample is then
    overwritten with [stop]. *)
Definition linspace (start stop : float) (num : Z) : list float :=
  let div := num - 1 in
  let delta := (stop - start)%float in
  let y := of_Z <$> seqZ 0 num in
  let y :=
    if decide (0 < div) then
      let step := (delta / of_Z div)%float in
      if (step =? 0)%float
      then (fun v => v / of_Z div * delta)%float <$> y
      else (fun v => v * step)%float <$> y
    else (fun v => v * delta)%float <$> y in
  let y := (fun v => v + start)%float <$> y in
  if decide (1 < num) then <[Z.to_nat (num - 1) := stop]> y else y.

Definition square (a : list float) : list float :=
  (fun x => x * x)%float <$> a.

Definition neg (a : list float) : list float := opp <$> a.
End np64.

(** ** [create_demo_data] *)

(** Lines 14-56. The index lists, the sizes and the three kernels are local
    variables of the function; they are named here so that statements can
    refer to them. *)

Definition single_spikes : list Z := [15; 35; 75].
Definition burst1 : list Z := [48; 50; 52].
Definition burst2 : list Z := [85; 87; 88; 90].

Definition kernel_size : Z := 15.
Definition boxcar_size : Z := 9.

Definition boxcar : list R :=
  let boxcar := np.zeros kernel_size in
  let boxcar := setslice_scalar boxcar None (Some boxcar_size) 1%R in
  np.div boxcar (np.sum boxcar).

Definition gaussian : list R :=
  let kernel_x := np.linspace (-2) 2 kernel_size in
  let gaussian := np.exp (np.neg (np.square kernel_x)) in
  np.div gaussian (np.sum gaussian).



Definition exponential : list R :=
  let exp_x := np.arange kernel_size in
  let exponential := np.exp (np.div (np.neg exp_x) 3) in
  np.div exponential (np.sum exponential).

Definition create_demo_data : option (list R * gmap string (list R)) :=
  let signal := np.zeros 100 in
  signal ← setitems signal single_spikes 1%R;
  signal ← setitems signal burst1 1%R;
  signal ← setitems signal burst2 1%R;
  let kernels : gmap string (list R) :=
    <["Exponential (Calcium-like)" := exponential]>
      (<["Gaussian" := gaussian]>
         (<["Boxcar (Uniform)" := boxcar]> ∅)) in
  Some (signal, kernels).

(** ** [convolution_animation] and its frame callback *)

(** The plot artists the callback updates in place. *)
Record Rectangle := mkRectangle {
  rect_x : Z; rect_y : R; rect_width : Z; rect_height : R }.

Record Line2D := mkLine2D { xdata : list Z; ydata : list R }.

Record Artists := mkArtists {
  kernel_line : Line2D;
  window_patch : Rectangle;
  conv_line : Line2D;
  current_point : Line2D }.

Definition set_x (x : Z) (p : Rectangle) : Rectangle :=
  mkRectangle x (rect_y p) (rect_width p) (rect_height p).

(** The right edge of the highlighted rectangle. *)
Definition rect_right (p : Rectangle) : Z := rect_x p + rect_width p.

(** What the callback closes over: [signal], [kernel], [kernel_size] and
    [convolution] of the enclosing [convolution_animation]. *)
Record Env := mkEnv {
  env_signal : list R;
  env_kernel : list R;
  env_kernel_size : Z;
  env_convolution : list R }.

Section animate.
Variable env : Env.

Let signal := env_signal env.
Let kernel := env_kernel env.
Let kernel_size := env_kernel_size env.
Let convolution := env_convolution env.
Let len_signal := Z.of_nat (length signal).

(** Lines 128-138: the window and slice bounds of frame [pos]. *)
Definition window_start (pos : Z) : Z := Z.max 0 (pos - kernel_size / 2).
Definition kernel_start (pos : Z) : Z := Z.max 0 (pos - kernel_size / 2).
Definition kernel_end (pos : Z) : Z :=
  Z.min len_signal (pos + kernel_size / 2 + 1).
Definition k_start (pos : Z) : Z := Z.max 0 (kernel_size / 2 - pos).
Definition k_end (pos : Z) : Z :=
  k_start pos + (kernel_end pos - kernel_start pos).

(** Lines 136-141: the kernel as it is drawn over the signal. *)
Definition positioned_kernel (pos : Z) : option (list R) :=
  let positioned_kernel := np.zeros_like signal in
  if decide (k_end pos > k_start pos) then
    setslice positioned_kernel
      (Some (kernel_start pos)) (Some (kernel_end pos))
      (slice (np.flip kernel) (Some (k_start pos)) (Some (k_end pos)))
  else Some positioned_kernel.

(** Lines 123-151: the callback, from the artists before the call to the
    artists after it. *)
Definition animate (frame : Z) (art : Artists) : option Artists :=
  let pos := frame in
  let window_patch := set_x (window_start pos) (window_patch art) in
  positioned_kernel ← positioned_kernel pos;
  let kernel_line :=
    mkLine2D (range len_signal) (np.mul positioned_kernel (12 / 10)) in
  let conv_line :=
    mkLine2D (range (pos + 1)) (slice convolution None (Some (pos + 1))) in
  c ← getitem convolution pos;
  let current_point := mkLine2D [pos] [c] in
  Some (mkArtists kernel_line window_patch conv_line current_point).
End animate.

(** [FuncAnimation(fig, func, frames=n, blit=...)] with no [init_func]:
    the frames are [range(n)]. Blitting is used when it is asked for and the
    canvas supports it, and then the constructor already draws the first
    frame: it calls [func] on it, and an exception of that call leaves the
    constructor. Otherwise no frame is drawn before the figure is shown.
    The result is the artists as the constructor leaves them and the
    frames. *)
Definition FuncAnimation (func : Z → Artists → option Artists)
    (art : Artists) (frames : Z) (blit supports_blit : bool)
  : option (Artists * list Z) :=
  let frame_seq := range frames in
  art ← (if blit && supports_blit then
           match head frame_seq with
           | Some frame => func frame art
           | None => Some art
           end
         else Some art);
  Some (art, frame_seq).

(** Lines 59-158. Of the figure only the artists the callback touches are
    kept, with the data they are created with; axis limits, titles and
    legends play no part in what the callback computes. The animation is
    the callback's environment, the artists as [FuncAnimation] leaves them
    and the frame range [range(len(signal))]. *)
Record Animation := mkAnimation {
  anim_env : Env;
  anim_artists : Artists;
  anim_frames : list Z }.

(** The function on a canvas that supports blitting or not. *)
Definition convolution_animation_on (supports_blit : bool)
    (kernel_name : string) (kernel : list R) : option Animation :=
  '(signal, _) ← create_demo_data;
  let kernel_size := Z.of_nat (length kernel) in
  convolution ← np.convolve_same signal kernel;
  let kernel_line := mkLine2D [] [] in
  let window_patch := mkRectangle 0 (- (2 / 10)) kernel_size (17 / 10) in
  let conv_line := mkLine2D [] [] in
  let current_point := mkLine2D [] [] in
  let env := mkEnv signal kernel kernel_size convolution in
  '(artists, frames) ←
    FuncAnimation (animate env)
      (mkArtists kernel_line window_patch conv_line current_point)
      (Z.of_nat (length signal)) true supports_blit;
  Some (mkAnimation env artists frames).

(** The function on a canvas that supports blitting, as the Agg canvases
    of the usual interactive backends do. *)
Definition convolution_animation (kernel_name : string) (kernel : list R)
  : option Animation :=
  convolution_animation_on true kernel_name kernel.

(** [FuncAnimation] calls the callback on each frame in turn, on the artists
    the previous call left; an exception in a call ends the run. *)
Definition play_frames (e : Env) (frames : list Z) (art : Artists)
  : option Artists :=
  foldl (fun acc frame => art ← acc; animate e frame art) (Some art) frames.

(** One pass of the animation over its frames, in order. *)
Definition play (a : Animation) : option Artists :=
  play_frames (anim_env a) (anim_frames a) (anim_artists a).

(** ** The command line *)

Definition choices : list string := ["boxcar"; "gaussian"; "exponential"].

Inductive parsed :=
| Namespace (kernel : string)
| SystemExit (status : Z).

(** The value of an attached option form: [--kernel=V] or [-kV]. *)
Definition attached (tok : string) : option string :=
  if String.prefix "--kernel=" tok then
    Some (String.substring 9 (String.length tok - 9) tok)
  else if String.prefix "--" tok then None
  else if String.prefix "-k" tok && negb (String.eqb tok "-k") then
    Some (String.substring 2 (String.length tok - 2) tok)
  else None.

(** The parser of lines 162-173: one required option [--kernel]/[-k] taking
    a value among [choices], and the help option argparse adds. A value is
    checked against [choices] as soon as it is consumed; help exits with
    status 0 on the spot; every other failure (invalid choice, missing
    value, unrecognised argument, missing required option) exits with
    status 2. [extras] records that an unrecognised argument was seen.
    Left out of argparse's syntax: unambiguous abbreviations of the long
    options ([--kern V]), the form [-k=V], short options joined in one
    token ([-hkV]) and the separator [--]; such tokens are read here as a
    value or as an unrecognised argument. *)
Fixpoint parse_loop (argv : list string) (kernel : option string)
    (extras : bool) : parsed :=
  match argv with
  | [] =>
      match kernel with
      | None => SystemExit 2
      | Some v => if extras then SystemExit 2 else Namespace v
      end
  | tok :: rest =>
      if bool_decide (tok = "-h" ∨ tok = "--help") then SystemExit 0
      else if bool_decide (tok = "--kernel" ∨ tok = "-k") then
        match rest with
        | [] => SystemExit 2
        | v :: rest' =>
            if bool_decide (v ∈ choices) then parse_loop rest' (Some v) extras
            else SystemExit 2
        end
      else
        match attached tok with
        | Some v =>
            if bool_decide (v ∈ choices) then parse_loop rest (Some v) extras
            else SystemExit 2
        | None => parse_loop rest kernel true
        end
  end.

Definition parse_args (argv : list string) : parsed :=
  parse_loop argv None false.

Definition kernel_map : gmap string string :=
  <["exponential" := "Exponential (Calcium-like)"]>
    (<["gaussian" := "Gaussian"]>
       (<["boxcar" := "Boxcar (Uniform)"]> ∅)).

(** What the process does that an observer can see, in order. *)
Inductive event :=
| EvUsage                                  (* the parser prints and exits *)
| EvCreateDemoData                         (* numeric work: signal, kernels *)
| EvConvolutionAnimation (kernel_name : string)  (* numeric work + figure *)
| EvShow                                   (* the display window opens *)
| EvTraceback.                             (* an uncaught exception *)

Record outcome := mkOutcome { trace : list event; status : Z }.

(** Lines 161-189. An uncaught exception ends the process with status 1. *)
Definition main (argv : list string) : outcome :=
  match parse_args argv with
  | SystemExit st => mkOutcome [EvUsage] st
  | Namespace kernel_arg =>
      match create_demo_data with
      | None => mkOutcome [EvCreateDemoData; EvTraceback] 1
      | Some (signal, kernels) =>
          match kernel_name ← kernel_map !! kernel_arg;
                kernel ← kernels !! kernel_name;
                Some (kernel_name, kernel) with
          | None => mkOutcome [EvCreateDemoData; EvTraceback] 1
          | Some (kernel_name, kernel) =>
              match convolution_animation kernel_name kernel with
              | None =>
                  mkOutcome [EvCreateDemoData;
                             EvConvolutionAnimation kernel_name;
                             EvTraceback] 1
              | Some _ =>
                  mkOutcome [EvCreateDemoData;
                             EvConvolutionAnimation kernel_name;
                             EvShow] 0
              end
          end
      end
  end.

(** ** Vocabulary of the statements *)

(** Equality of reals is decidable (classically), which is what counting the
    non-zero samples of an array needs. *)
#[local] Instance R_eq_dec : EqDecision R := Req_dec_T.

Definition count_nonzero (a : list R) : nat :=
  length (filter (fun x => x ≠ 0%R) a).

(** Every index the generator stores a spike at, in program order. *)
Definition spike_positions : list Z := single_spikes ++ burst1 ++ burst2.

(** The array of length [n] that is 1 at the indices of [idx], 0 elsewhere. *)
Definition impulses (n : Z) (idx : list Z) : list R :=
  (fun i => if decide (i ∈ idx) then 1%R else 0%R) <$> seqZ 0 n.

(** The keys of the dictionary the generator returns. *)
Definition kernel_names : list string :=
  ["Boxcar (Uniform)"; "Gaussian"; "Exponential (Calcium-like)"].

(** What the three kernels have in common. *)
Definition is_kernel (k : list R) : Prop :=
  length k = 15%nat ∧ Forall (Rle 0) k ∧ np.sum k = 1%R.

(** The [i]-th of the 15 evenly spaced sample points of [[-2, 2]]. *)
Definition sample_point (i : Z) : R := (-2 + IZR i * ((2 - -2) / 14))%R.

(** The closure environment of a run on a 15-tap kernel. *)
Definition demo_env (e : Env) (kernel : list R) : Prop :=
  env_signal e = impulses 100 spike_positions ∧
  env_kernel e = kernel ∧
  env_kernel_size e = 15 ∧
  length kernel = 15%nat ∧
  length (env_convolution e) = 100%nat.

(** The dot product of two arrays. *)
Definition dot (a b : list R) : R := np.sum (zip_with Rmult a b).

(** Sum of [f] over [0, n). *)
Definition sum_upto (n : nat) (f : nat → R) : R := np.sum (f <$> seq 0 n).

(** Tap [j] of a kernel, zero off its support. *)
Definition tap (kernel : list R) (j : Z) : R :=
  if decide (0 <= j) then nth (Z.to_nat j) kernel 0%R else 0%R.

(** The artists [convolution_animation] creates for a kernel. *)
Definition initial_artists (kernel : list R) : Artists :=
  mkArtists (mkLine2D [] [])
            (mkRectangle 0 (- (2 / 10)) (Z.of_nat (length kernel)) (17 / 10))
            (mkLine2D [] []) (mkLine2D [] []).

(** The closure environment of a run on any non-empty kernel. *)
Definition run_env (e : Env) (kernel : list R) : Prop :=
  env_signal e = impulses 100 spike_positions ∧
  env_kernel e = kernel ∧
  env_kernel_size e = Z.of_nat (length kernel) ∧
  np.convolve_same (env_signal e) kernel = Some (env_convolution e) ∧
  length (env_convolution e) = (100 `max` length kernel)%nat.

(** * Properties *)

(** ** The model on concrete inputs *)

Example getitem_negative : getitem [1; 2; 3] (-1) = Some 3.
Proof. reflexivity. Qed.

Example setitems_out_of_range : setitems [1; 2; 3; 4; 5] [0; 5] 7 = None.
Proof. reflexivity. Qed.

Example slice_clamps : slice [1; 2; 3; 4; 5] (Some 3) (Some 10) = [4; 5].
Proof. reflexivity. Qed.

Example setslice_shape_mismatch :
  setslice [1; 2; 3; 4; 5] (Some 1) (Some 3) [9; 9; 9] = None.
Proof. reflexivity. Qed.

Example setslice_broadcast :
  setslice [1; 2; 3; 4; 5] (Some 1) (Some 3) [9] = Some [1; 9; 9; 4; 5].
Proof. reflexivity. Qed.

(** The example of numpy's documentation for [mode="same"]. *)
Example convolve_same_doc :
  np.convolve_same [1; 2; 3]%R [0; 1; 1 / 2]%R = Some [1; 5 / 2; 4]%R.
Proof.
  cbv -[IZR Rplus Rmult Rdiv Rinv Ropp]. repeat (f_equal; try lra).
Qed.

Example parse_args_attached :
  parse_args ["--kernel=exponential"] = Namespace "exponential".
Proof. reflexivity. Qed.

Example parse_args_missing : parse_args [] = SystemExit 2.
Proof. reflexivity. Qed.

Example parse_args_help : parse_args ["-h"] = SystemExit 0.
Proof. reflexivity. Qed.

(** ** Sums of arrays and normalisation *)

Lemma sum_app a b : np.sum (a ++ b) = (np.sum a + np.sum b)%R.
Proof. induction a as [|x a IH]; simpl; [lra | rewrite IH; lra]. Qed.

Lemma sum_replicate_0 n : np.sum (replicate n 0%R) = 0%R.
Proof. induction n as [|n IH]; simpl; [done | rewrite IH; lra]. Qed.

Lemma sum_div a s : np.sum (np.div a s) = (np.sum a / s)%R.
Proof.
  induction a as [|x a IH]; simpl; [lra |].
  fold (np.div a s). rewrite IH. lra.
Qed.

Lemma sum_nonneg a : Forall (Rle 0) a → (0 <= np.sum a)%R.
Proof. induction 1; simpl; lra. Qed.

Lemma sum_pos a : Forall (Rlt 0) a → a ≠ [] → (0 < np.sum a)%R.
Proof.
  intros H Hne. destruct H as [|x a Hx Ha]; [done |].
  simpl. assert (0 <= np.sum a)%R; [| lra].
  apply sum_nonneg. eapply Forall_impl; [exact Ha | intros; simpl in *; lra].
Qed.

Lemma sum_normalised a : np.sum a ≠ 0%R → np.sum (np.div a (np.sum a)) = 1%R.
Proof. intros H. rewrite sum_div. by field. Qed.

Lemma div_nonneg a s : Forall (Rle 0) a → (0 < s)%R → Forall (Rle 0) (np.div a s).
Proof.
  intros Ha Hs. apply Forall_fmap. eapply Forall_impl; [exact Ha |].
  intros x Hx. simpl. unfold Rdiv.
  apply Rmult_le_pos; [done | by apply Rlt_le, Rinv_0_lt_compat].
Qed.

Lemma div_pos a s : Forall (Rlt 0) a → (0 < s)%R → Forall (Rlt 0) (np.div a s).
Proof.
  intros Ha Hs. apply Forall_fmap. eapply Forall_impl; [exact Ha |].
  intros x Hx. simpl. apply Rdiv_lt_0_compat; done.
Qed.

Lemma exp_all_pos a : Forall (Rlt 0) (np.exp a).
Proof. apply Forall_fmap, Forall_true. intros x. apply exp_pos. Qed.

Lemma length_div a s : length (np.div a s) = length a.
Proof. apply length_fmap. Qed.

(** ** What [create_demo_data] returns *)

Lemma boxcar_eq : boxcar = replicate 9 (1 / 9)%R ++ replicate 6 0%R.
Proof.
  unfold boxcar. cbv -[IZR Rplus Rmult Rdiv Rinv Ropp].
  repeat (f_equal; try lra).
Qed.

Lemma gaussian_length : length gaussian = 15%nat.
Proof. reflexivity. Qed.

Lemma exponential_length : length exponential = 15%nat.
Proof. reflexivity. Qed.

Lemma gaussian_pos : Forall (Rlt 0) gaussian.
Proof.
  unfold gaussian. cbv zeta. apply div_pos; [apply exp_all_pos |].
  apply sum_pos; [apply exp_all_pos | discriminate].
Qed.

Lemma create_demo_data_returns :
  ∃ kernels,
    create_demo_data = Some (impulses 100 spike_positions, kernels) ∧
    kernels !! "Boxcar (Uniform)" = Some boxcar ∧
    kernels !! "Gaussian" = Some gaussian ∧
    kernels !! "Exponential (Calcium-like)" = Some exponential ∧
    ∀ name kernel, kernels !! name = Some kernel →
      name = "Boxcar (Uniform)" ∧ kernel = boxcar ∨
      name = "Gaussian" ∧ kernel = gaussian ∨
      name = "Exponential (Calcium-like)" ∧ kernel = exponential.
Proof.
  exists (<["Exponential (Calcium-like)" := exponential]>
            (<["Gaussian" := gaussian]> (<["Boxcar (Uniform)" := boxcar]> ∅))).
  split.
  - unfold create_demo_data.
    set (kernels := insert _ _ _).
    cbv -[IZR kernels]. reflexivity.
  - split_and!; [by simplify_map_eq .. |].
    intros name kernel Hk.
    rewrite !lookup_insert in Hk.
    repeat case_decide; subst.
    + right; right. split; [done | congruence].
    + right; left. split; [done | congruence].
    + left. split; [done | congruence].
    + by rewrite lookup_empty in Hk.
Qed.

Lemma count_nonzero_0 a : count_nonzero (0%R :: a) = count_nonzero a.
Proof. unfold count_nonzero. rewrite filter_cons_False; [done | tauto]. Qed.

Lemma count_nonzero_1 a : count_nonzero (1%R :: a) = S (count_nonzero a).
Proof. unfold count_nonzero. rewrite filter_cons_True; [done | lra]. Qed.

Lemma impulses_length n idx : length (impulses n idx) = Z.to_nat n.
Proof. unfold impulses. by rewrite length_fmap, length_seqZ. Qed.

Lemma getitem_lookup {A} (a : list A) i :
  0 <= i < Z.of_nat (length a) → getitem a i = a !! Z.to_nat i.
Proof.
  intros H. unfold getitem, norm_index. by rewrite decide_True.
Qed.

Lemma impulses_getitem n idx i :
  0 <= i < n →
  getitem (impulses n idx) i = Some (if decide (i ∈ idx) then 1%R else 0%R).
Proof.
  intros H. rewrite getitem_lookup by (rewrite impulses_length; lia).
  unfold impulses. rewrite list_lookup_fmap, lookup_seqZ_lt by lia.
  simpl. by replace (0 + Z.of_nat (Z.to_nat i)) with i by lia.
Qed.

Lemma demo_count : count_nonzero (impulses 100 spike_positions) = 10%nat.
Proof.
  cbv -[IZR count_nonzero].
  repeat (rewrite count_nonzero_0 || rewrite count_nonzero_1).
  reflexivity.
Qed.

(** C4: the generator returns a Signal of length 100 with exactly 10
    non-zero entries; the entries at 15, 35, 75, at 48, 50, 52 and at
    85, 87, 88, 90 are 1 and every other entry is 0. *)
Theorem signal_is_ten_unit_impulses :
  ∃ signal kernels,
    create_demo_data = Some (signal, kernels) ∧
    length signal = 100%nat ∧
    count_nonzero signal = 10%nat ∧
    ∀ i, 0 <= i < 100 →
      getitem signal i =
        Some (if decide (i ∈ [15; 35; 75; 48; 50; 52; 85; 87; 88; 90])
              then 1%R else 0%R).
Proof.
  destruct create_demo_data_returns as (kernels & Hc & _).
  exists (impulses 100 spike_positions), kernels.
  split; [exact Hc |]. split; [by rewrite impulses_length |].
  split; [exact demo_count |].
  intros i Hi. by rewrite impulses_getitem.
Qed.

Lemma signal_spike_at_15 :
  ∃ signal kernels,
    create_demo_data = Some (signal, kernels) ∧
    getitem signal 15 = Some 1%R ∧ getitem signal 16 = Some 0%R.
Proof.
  destruct signal_is_ten_unit_impulses as (signal & kernels & Hc & _ & _ & H).
  exists signal, kernels. split; [exact Hc |]. split.
  - exact (H 15 ltac:(lia)).
  - exact (H 16 ltac:(lia)).
Defined.

Lemma boxcar_length : length boxcar = 15%nat.
Proof. reflexivity. Qed.

Lemma boxcar_nonneg : Forall (Rle 0) boxcar.
Proof.
  rewrite boxcar_eq. apply Forall_app. split; apply Forall_replicate; lra.
Qed.

Lemma boxcar_sum : np.sum boxcar = 1%R.
Proof. rewrite boxcar_eq. simpl. lra. Qed.

Lemma Forall_pos_nonneg a : Forall (Rlt 0) a → Forall (Rle 0) a.
Proof. intros H. eapply Forall_impl; [exact H |]. intros x Hx. simpl in *. lra. Qed.

Lemma exponential_pos : Forall (Rlt 0) exponential.
Proof.
  unfold exponential. cbv zeta. apply div_pos; [apply exp_all_pos |].
  apply sum_pos; [apply exp_all_pos | discriminate].
Qed.

Lemma gaussian_sum : np.sum gaussian = 1%R.
Proof.
  unfold gaussian. cbv zeta. apply sum_normalised.
  apply Rgt_not_eq, sum_pos; [apply exp_all_pos | discriminate].
Qed.

Lemma exponential_sum : np.sum exponential = 1%R.
Proof.
  unfold exponential. cbv zeta. apply sum_normalised.
  apply Rgt_not_eq, sum_pos; [apply exp_all_pos | discriminate].
Qed.

Lemma boxcar_is_kernel : is_kernel boxcar.
Proof. split_and!; [apply boxcar_length | apply boxcar_nonneg | apply boxcar_sum]. Qed.

Lemma gaussian_is_kernel : is_kernel gaussian.
Proof.
  split_and!; [apply gaussian_length | | apply gaussian_sum].
  apply Forall_pos_nonneg, gaussian_pos.
Qed.

Lemma exponential_is_kernel : is_kernel exponential.
Proof.
  split_and!; [apply exponential_length | | apply exponential_sum].
  apply Forall_pos_nonneg, exponential_pos.
Qed.

(** C3: the generator returns exactly three kernels, boxcar, Gaussian and
    exponential, and each of them has 15 entries, none negative, that sum
    to 1 (in exact arithmetic). *)
Theorem kernels_normalised :
  ∃ signal kernels,
    create_demo_data = Some (signal, kernels) ∧
    (∀ name, name ∈ kernel_names → is_Some (kernels !! name)) ∧
    ∀ name kernel, kernels !! name = Some kernel →
      length kernel = 15%nat ∧ Forall (Rle 0) kernel ∧ np.sum kernel = 1%R.
Proof.
  destruct create_demo_data_returns as (kernels & Hc & Hb & Hg & He & Hdom).
  eexists _, kernels. split; [exact Hc |]. split.
  - intros name Hn. unfold kernel_names in Hn.
    repeat (apply elem_of_cons in Hn as [-> | Hn]; [eauto |]).
    inversion Hn.
  - intros name kernel Hk.
    destruct (Hdom _ _ Hk) as [[_ ->] | [[_ ->] | [_ ->]]].
    + apply boxcar_is_kernel.
    + apply gaussian_is_kernel.
    + apply exponential_is_kernel.
Qed.

Lemma gaussian_kernel_normalised :
  ∃ signal kernels kernel,
    create_demo_data = Some (signal, kernels) ∧
    kernels !! "Gaussian" = Some kernel ∧
    length kernel = 15%nat ∧ np.sum kernel = 1%R.
Proof.
  destruct kernels_normalised as (signal & kernels & Hc & Hdom & H).
  destruct (Hdom "Gaussian") as [kernel Hk].
  { unfold kernel_names. apply list_elem_of_further, list_elem_of_here. }
  destruct (H "Gaussian" kernel Hk) as (Hlen & _ & Hsum).
  exists signal, kernels, kernel.
  split; [exact Hc |]. split; [exact Hk |]. split; [exact Hlen | exact Hsum].
Defined.

(** C5: the kernel the generator returns for [boxcar] has 15 entries; the
    first 9 are all 1/9, which is not 0, the other 6 are 0, and the entries
    sum to 1. *)
Theorem boxcar_shape :
  ∃ signal kernels,
    create_demo_data = Some (signal, kernels) ∧
    kernel_map !! "boxcar" = Some "Boxcar (Uniform)" ∧
    kernels !! "Boxcar (Uniform)" = Some boxcar ∧
    length boxcar = 15%nat ∧
    (1 / 9 ≠ 0)%R ∧
    (∀ i, 0 <= i < 9 → getitem boxcar i = Some (1 / 9)%R) ∧
    (∀ i, 9 <= i < 15 → getitem boxcar i = Some 0%R) ∧
    np.sum boxcar = 1%R.
Proof.
  destruct create_demo_data_returns as (kernels & Hc & Hb & _).
  eexists _, kernels. split; [exact Hc |].
  split; [done |]. split; [exact Hb |].
  split; [apply boxcar_length |]. split; [lra |].
  split_and!; [| | apply boxcar_sum].
  - intros i Hi. rewrite getitem_lookup by (rewrite boxcar_length; lia).
    rewrite boxcar_eq, lookup_app_l by (rewrite length_replicate; lia).
    apply lookup_replicate_2. lia.
  - intros i Hi. rewrite getitem_lookup by (rewrite boxcar_length; lia).
    rewrite boxcar_eq, lookup_app_r by (rewrite length_replicate; lia).
    apply lookup_replicate_2. rewrite length_replicate. lia.
Qed.

Lemma boxcar_first_and_last :
  getitem boxcar 0 = Some (1 / 9)%R ∧ getitem boxcar 14 = Some 0%R.
Proof.
  destruct boxcar_shape as (_ & _ & _ & _ & _ & _ & _ & Hhead & Htail & _).
  split; [apply Hhead | apply Htail]; lia.
Defined.


Lemma gaussian_getitem i :
  0 <= i < 15 →
  getitem gaussian i =
    Some (exp (- sample_point i ^ 2) /
          np.sum (np.exp (np.neg (np.square (np.linspace (-2) 2 15)))))%R.
Proof.
  intros Hi. rewrite getitem_lookup by (rewrite gaussian_length; lia).
  unfold gaussian, kernel_size. cbv zeta. set (s := np.sum _).
  unfold np.div, np.exp, np.neg, np.square, np.linspace. cbv zeta.
  rewrite !list_lookup_fmap, lookup_seqZ_lt by lia.
  simpl. unfold sample_point.
  by replace (0 + Z.of_nat (Z.to_nat i)) with i by lia.
Qed.



Section gaussian_binary64.
Import PrimFloat.

End gaussian_binary64.

(** ** The convolution and the set-up of the animation *)

Lemma convolve_full_length a v :
  length (np.convolve_full a v) = (length a + length v - 1)%nat.
Proof. unfold np.convolve_full. by rewrite length_fmap, length_seq. Qed.

Lemma convolve_same_length a v :
  a ≠ [] → v ≠ [] →
  ∃ c, np.convolve_same a v = Some c ∧
       length c = (length a `max` length v)%nat.
Proof.
  intros Ha Hv. unfold np.convolve_same.
  assert (length a ≠ 0%nat) by (by destruct a).
  assert (length v ≠ 0%nat) by (by destruct v).
  rewrite decide_False by lia.
  case_decide; eexists; (split; [reflexivity |]);
    rewrite length_take, length_drop, convolve_full_length.
  - pose proof (Nat.Div0.div_le_upper_bound (length a) 2 (length a)). lia.
  - pose proof (Nat.Div0.div_le_upper_bound (length v) 2 (length v)). lia.
Qed.


Lemma convolution_animation_on_env name kernel :
  kernel ≠ [] →
  ∃ e,
    run_env e kernel ∧
    ∀ blit,
      convolution_animation_on blit name kernel =
        art ← (if blit then animate e 0 (initial_artists kernel)
               else Some (initial_artists kernel));
        Some (mkAnimation e art (range 100)).
Proof.
  intros Hk. unfold convolution_animation_on.
  destruct create_demo_data_returns as (kernels & -> & _). simpl.
  destruct (convolve_same_length (impulses 100 spike_positions) kernel)
    as (c & Hcs & Hc); [discriminate | done |].
  rewrite Hcs. simpl. rewrite impulses_length in *.
  eexists (mkEnv _ kernel _ c). split.
  - unfold run_env. simpl. split_and!; done.
  - intros blit. unfold FuncAnimation, initial_artists.
    change (head (range (Z.of_nat 100))) with (Some 0).
    destruct blit; simpl.
    + by destruct (animate _ 0 _).
    + reflexivity.
Qed.

Lemma run_env_demo_env e kernel :
  run_env e kernel → length kernel = 15%nat → demo_env e kernel.
Proof.
  intros (Hsig & Hker & Hs & _ & Hl) Hlen. rewrite Hlen in *.
  unfold demo_env. split_and!; done.
Qed.

(** ** Indices and slices of one frame *)

Lemma slice_bound_in len i : 0 <= i <= len → slice_bound len i = Z.to_nat i.
Proof. intros H. unfold slice_bound. rewrite decide_False by lia. lia. Qed.

Lemma getitem_flip {A} (a : list A) j :
  0 <= j < Z.of_nat (length a) →
  getitem (np.flip a) j = getitem a (Z.of_nat (length a) - 1 - j).
Proof.
  intros H. unfold np.flip.
  rewrite !getitem_lookup by (rewrite ?length_reverse; lia).
  rewrite reverse_lookup by lia. f_equal. lia.
Qed.

Lemma getitem_is_Some {A} (a : list A) i :
  0 <= i < Z.of_nat (length a) → is_Some (getitem a i).
Proof.
  intros H. rewrite getitem_lookup by done. apply lookup_lt_is_Some. lia.
Qed.

Section frame.
Variables (e : Env) (kernel : list R) (pos : Z).
Hypothesis He : demo_env e kernel.
Hypothesis Hpos : 0 <= pos < 100.

Lemma kernel_start_eq : kernel_start e pos = Z.max 0 (pos - 7).
Proof. destruct He as (_ & _ & Hs & _). unfold kernel_start. by rewrite Hs. Qed.

Lemma window_start_eq : window_start e pos = Z.max 0 (pos - 7).
Proof. destruct He as (_ & _ & Hs & _). unfold window_start. by rewrite Hs. Qed.

Lemma kernel_end_eq : kernel_end e pos = Z.min 100 (pos + 8).
Proof.
  destruct He as (Hsig & _ & Hs & _). unfold kernel_end.
  rewrite Hs, Hsig, impulses_length. change (15 / 2) with 7. lia.
Qed.

Lemma k_start_eq : k_start e pos = Z.max 0 (7 - pos).
Proof. destruct He as (_ & _ & Hs & _). unfold k_start. by rewrite Hs. Qed.

Lemma k_end_eq :
  k_end e pos = Z.max 0 (7 - pos) + (Z.min 100 (pos + 8) - Z.max 0 (pos - 7)).
Proof. unfold k_end. by rewrite k_start_eq, kernel_end_eq, kernel_start_eq. Qed.

Lemma index_bounds :
  0 <= kernel_start e pos <= kernel_end e pos ∧ kernel_end e pos <= 100 ∧
  0 <= k_start e pos <= k_end e pos ∧ k_end e pos <= 15 ∧
  k_end e pos - k_start e pos = kernel_end e pos - kernel_start e pos ∧
  k_start e pos < k_end e pos.
Proof. rewrite k_end_eq, k_start_eq, kernel_end_eq, kernel_start_eq. lia. Qed.

Lemma positioned_kernel_eq :
  positioned_kernel e pos =
    Some (replicate (Z.to_nat (kernel_start e pos)) 0%R ++
          take (Z.to_nat (kernel_end e pos - kernel_start e pos))
               (drop (Z.to_nat (k_start e pos)) (reverse kernel)) ++
          replicate (Z.to_nat (100 - kernel_end e pos)) 0%R).
Proof.
  pose proof index_bounds as Hb.
  destruct He as (Hsig & Hker & Hs & Hlen & Hconv).
  unfold positioned_kernel. rewrite decide_True by lia.
  unfold setslice, slice, slice_lo, slice_hi, np.zeros_like, np.flip.
  rewrite Hsig, Hker, impulses_length, length_reverse, Hlen. simpl from_option.
  rewrite !slice_bound_in by lia.
  rewrite length_take, length_drop, length_reverse, Hlen.
  rewrite decide_True by lia.
  rewrite take_replicate, drop_replicate.
  do 3 f_equal; [f_equal; lia | | f_equal; lia].
  f_equal. unfold k_end. lia.
Qed.

Lemma positioned_kernel_length pk :
  positioned_kernel e pos = Some pk → length pk = 100%nat.
Proof.
  pose proof index_bounds as Hb.
  rewrite positioned_kernel_eq. intros [= <-].
  destruct He as (_ & _ & _ & Hlen & _).
  rewrite !length_app, !length_replicate, length_take, length_drop,
    length_reverse, Hlen.
  unfold k_end in Hb. lia.
Qed.

Lemma positioned_kernel_getitem pk i :
  positioned_kernel e pos = Some pk → 0 <= i < 100 →
  getitem pk i =
    if decide (kernel_start e pos <= i < kernel_end e pos)
    then getitem (np.flip kernel) (i - (pos - 7))
    else Some 0%R.
Proof.
  intros Hpk Hi.
  pose proof index_bounds as Hb.
  pose proof (positioned_kernel_length pk Hpk) as Hlenpk.
  rewrite getitem_lookup by lia.
  rewrite positioned_kernel_eq in Hpk.
  injection Hpk as <-.
  pose proof k_start_eq as Hks.
  pose proof kernel_start_eq as Hs.
  destruct He as (_ & _ & _ & Hlen & _). unfold k_end in Hb.
  case_decide as Hin.
  - rewrite lookup_app_r by (rewrite length_replicate; lia).
    rewrite length_replicate.
    rewrite lookup_app_l
      by (rewrite length_take, length_drop, length_reverse, Hlen; lia).
    rewrite lookup_take_lt, lookup_drop by lia.
    unfold np.flip. rewrite getitem_lookup by (rewrite length_reverse; lia).
    f_equal. lia.
  - destruct (decide (i < kernel_start e pos)) as [Hlt | Hge].
    + rewrite lookup_app_l by (rewrite length_replicate; lia).
      apply lookup_replicate_2. lia.
    + rewrite lookup_app_r by (rewrite length_replicate; lia).
      rewrite lookup_app_r
        by (rewrite length_replicate, length_take, length_drop,
              length_reverse, Hlen; lia).
      apply lookup_replicate_2.
      rewrite length_replicate, length_take, length_drop, length_reverse, Hlen.
      lia.
Qed.

Lemma animate_returns art :
  ∃ pk c,
    positioned_kernel e pos = Some pk ∧
    getitem (env_convolution e) pos = Some c ∧
    animate e pos art =
      Some (mkArtists
              (mkLine2D (range 100) (np.mul pk (12 / 10)))
              (set_x (Z.max 0 (pos - 7)) (window_patch art))
              (mkLine2D (range (pos + 1))
                        (slice (env_convolution e) None (Some (pos + 1))))
              (mkLine2D [pos] [c])).
Proof.
  destruct (getitem_is_Some (env_convolution e) pos) as [c Hc].
  { destruct He as (_ & _ & _ & _ & ->). lia. }
  eexists _, c. split; [by apply positioned_kernel_eq |]. split; [done |].
  unfold animate.
  rewrite positioned_kernel_eq. simpl.
  rewrite Hc. simpl. rewrite window_start_eq.
  destruct He as (-> & _). by rewrite impulses_length.
Qed.
End frame.

Lemma convolution_animation_returns name kernel :
  length kernel = 15%nat →
  ∃ anim,
    convolution_animation name kernel = Some anim ∧
    demo_env (anim_env anim) kernel ∧
    np.convolve_same (env_signal (anim_env anim)) kernel =
      Some (env_convolution (anim_env anim)) ∧
    anim_frames anim = range 100 ∧
    rect_x (window_patch (anim_artists anim)) = 0 ∧
    rect_width (window_patch (anim_artists anim)) = 15.
Proof.
  intros Hk.
  assert (Hne : kernel ≠ []) by (intros ->; discriminate Hk).
  destruct (convolution_animation_on_env name kernel Hne) as (e & He & Heq).
  pose proof (run_env_demo_env e kernel He Hk) as Hd.
  destruct (animate_returns e kernel 0 Hd ltac:(lia) (initial_artists kernel))
    as (pk & c & _ & _ & Hart).
  unfold convolution_animation. rewrite Heq, Hart. simpl.
  eexists. split; [reflexivity |]. simpl.
  split; [exact Hd |]. split; [by destruct He as (_ & _ & _ & ? & _) |].
  rewrite Hk. done.
Qed.

(** ** How much of the kernel's mass a frame shows *)

Lemma sum_reverse a : np.sum (reverse a) = np.sum a.
Proof.
  induction a as [|x a IH]; [done |].
  rewrite reverse_cons, sum_app, IH. simpl. lra.
Qed.

Lemma sum_window l m n :
  np.sum l =
    (np.sum (take m l) + np.sum (take n (drop m l)) + np.sum (drop (m + n) l))%R.
Proof.
  rewrite <- (take_drop m l) at 1. rewrite sum_app.
  rewrite <- (take_drop n (drop m l)) at 1. rewrite sum_app, drop_drop. lra.
Qed.

Lemma sum_zero_nil l : Forall (Rlt 0) l → np.sum l = 0%R → l = [].
Proof.
  intros Hl Hs. destruct l as [|x l]; [done |].
  assert (0 < np.sum (x :: l))%R by (by apply sum_pos). lra.
Qed.

(** A window of [n] samples from offset [m] over an array made of [z] zeros
    followed by positive samples [P]: it carries the whole mass exactly when
    it leaves out no positive sample. *)
Lemma window_mass (z : nat) (P : list R) (m n : nat) :
  Forall (Rlt 0) P → P ≠ [] → (z ≤ m + n)%nat →
  let l := replicate z 0%R ++ P in
  (np.sum (take n (drop m l)) <= np.sum l)%R ∧
  (np.sum (take n (drop m l)) = np.sum l ↔
   (m ≤ z ∧ z + length P ≤ m + n)%nat).
Proof.
  intros HP Hne Hz l.
  assert (Hhead : np.sum (take m l) = np.sum (take (m - z) P)).
  { unfold l. rewrite take_app, sum_app, take_replicate, sum_replicate_0.
    rewrite length_replicate. lra. }
  assert (Htail : np.sum (drop (m + n) l) = np.sum (drop (m + n - z) P)).
  { unfold l. rewrite drop_app, sum_app, drop_replicate, sum_replicate_0.
    rewrite length_replicate. lra. }
  assert (Hh : (0 <= np.sum (take (m - z) P))%R)
    by (apply sum_nonneg, Forall_pos_nonneg, Forall_take, HP).
  assert (Ht : (0 <= np.sum (drop (m + n - z) P))%R)
    by (apply sum_nonneg, Forall_pos_nonneg, Forall_drop, HP).
  pose proof (sum_window l m n) as Hw. rewrite Hhead, Htail in Hw.
  split; [lra |]. split.
  - intros Heq.
    assert (Hh0 : np.sum (take (m - z) P) = 0%R) by lra.
    assert (Ht0 : np.sum (drop (m + n - z) P) = 0%R) by lra.
    apply sum_zero_nil in Hh0; [| by apply Forall_take].
    apply sum_zero_nil in Ht0; [| by apply Forall_drop].
    apply (f_equal length) in Hh0, Ht0.
    rewrite length_take in Hh0. rewrite length_drop in Ht0. simpl in *.
    destruct P; [done |]. simpl in *. lia.
  - intros [Hm Hn].
    replace (m - z)%nat with 0%nat in Hw by lia.
    rewrite (drop_ge P) in Hw by lia. simpl in Hw. lra.
Qed.

Section mass.
Variables (e : Env) (kernel : list R) (pos : Z).
Hypothesis He : demo_env e kernel.
Hypothesis Hpos : 0 <= pos < 100.

Lemma positioned_kernel_sum pk :
  positioned_kernel e pos = Some pk →
  np.sum pk =
    np.sum (take (Z.to_nat (kernel_end e pos - kernel_start e pos))
                 (drop (Z.to_nat (k_start e pos)) (reverse kernel))).
Proof.
  rewrite (positioned_kernel_eq e kernel pos He Hpos). intros [= <-].
  rewrite !sum_app, !sum_replicate_0. lra.
Qed.

Lemma positioned_kernel_nonneg pk :
  Forall (Rle 0) kernel → positioned_kernel e pos = Some pk →
  Forall (Rle 0) pk.
Proof.
  intros Hk. rewrite (positioned_kernel_eq e kernel pos He Hpos).
  intros [= <-]. rewrite !Forall_app. split_and!.
  - apply Forall_replicate. lra.
  - by apply Forall_take, Forall_drop, Forall_reverse.
  - apply Forall_replicate. lra.
Qed.

(** For a kernel whose last [z] taps are zero and whose other taps are
    positive, the drawn kernel carries the whole mass exactly on the frames
    [7 - z .. 92]. *)
Lemma frame_mass (z : nat) (P : list R) pk :
  reverse kernel = replicate z 0%R ++ P →
  Forall (Rlt 0) P → (z ≤ 7)%nat → np.sum kernel = 1%R →
  positioned_kernel e pos = Some pk →
  (np.sum pk <= 1)%R ∧ (np.sum pk = 1%R ↔ 7 - Z.of_nat z <= pos <= 92).
Proof.
  intros Hrev HP Hz Hsum Hpk.
  pose proof (index_bounds e kernel pos He Hpos) as Hb.
  pose proof (k_start_eq e kernel pos He) as Hks.
  pose proof (kernel_start_eq e kernel pos He) as Hs.
  pose proof (kernel_end_eq e kernel pos He) as Hke.
  assert (Hlen : (z + length P = 15)%nat).
  { destruct He as (_ & _ & _ & Hl & _).
    apply (f_equal length) in Hrev.
    rewrite length_reverse, length_app, length_replicate in Hrev. lia. }
  assert (Hne : P ≠ []) by (intros ->; simpl in Hlen; lia).
  assert (Hone : np.sum (replicate z 0%R ++ P) = 1%R)
    by (by rewrite <- Hrev, sum_reverse).
  rewrite (positioned_kernel_sum pk Hpk), Hrev.
  unfold k_end in Hb.
  destruct (window_mass z P (Z.to_nat (k_start e pos))
              (Z.to_nat (kernel_end e pos - kernel_start e pos)) HP Hne)
    as [Hle Hiff]; [lia |].
  rewrite Hone in Hle, Hiff.
  split; [exact Hle |]. rewrite Hiff. lia.
Qed.
End mass.

(** ** A whole pass of the animation *)

Lemma play_frames_cons e frame frames art :
  play_frames e (frame :: frames) art =
    art' ← animate e frame art; play_frames e frames art'.
Proof.
  unfold play_frames. simpl.
  destruct (animate e frame art) as [art' |]; simpl; [done |].
  induction frames as [|f frames IH]; [done | exact IH].
Qed.

Lemma play_frames_total e kernel frames art :
  demo_env e kernel → Forall (fun frame => 0 <= frame < 100) frames →
  is_Some (play_frames e frames art).
Proof.
  intros He Hf. revert art.
  induction Hf as [|frame frames Hframe _ IH]; intros art; [by eexists |].
  rewrite play_frames_cons.
  destruct (animate_returns e kernel frame He Hframe art)
    as (pk & c & _ & _ & ->).
  apply IH.
Qed.

Lemma range_bounds n : Forall (fun frame => 0 <= frame < n) (range n).
Proof.
  apply Forall_forall. intros x Hx. unfold range in Hx.
  apply elem_of_seqZ in Hx. lia.
Qed.

(** ** The convolution output *)

(** C6: for every kernel the generator returns, the same-mode convolution
    of the Signal with that kernel, as [convolution_animation] computes it,
    succeeds and is as long as the Signal, that is 100 samples. *)
Theorem convolution_output_length :
  ∃ signal kernels,
    create_demo_data = Some (signal, kernels) ∧
    ∀ name kernel, kernels !! name = Some kernel →
      ∃ anim,
        convolution_animation name kernel = Some anim ∧
        np.convolve_same signal kernel =
          Some (env_convolution (anim_env anim)) ∧
        length (env_convolution (anim_env anim)) = length signal ∧
        length (env_convolution (anim_env anim)) = 100%nat.
Proof.
  destruct create_demo_data_returns as (kernels & Hc & _ & _ & _ & Hdom).
  eexists _, kernels. split; [exact Hc |].
  intros name kernel Hk.
  assert (Hlen : length kernel = 15%nat).
  { destruct (Hdom _ _ Hk) as [[_ ->] | [[_ ->] | [_ ->]]]; reflexivity. }
  destruct (convolution_animation_returns name kernel Hlen)
    as (anim & Ha & He & Hconv & _).
  destruct He as (Hsig & _ & _ & _ & Hl).
  exists anim. rewrite <- Hsig, Hconv, Hl, Hsig, impulses_length.
  split_and!; [exact Ha | reflexivity ..].
Qed.

Lemma convolution_output_length_gaussian :
  ∃ anim,
    convolution_animation "Gaussian" gaussian = Some anim ∧
    length (env_convolution (anim_env anim)) = 100%nat.
Proof.
  destruct convolution_output_length as (signal & kernels & Hc & H).
  destruct create_demo_data_returns as (kernels' & Hc' & _ & Hg & _).
  rewrite Hc in Hc'. injection Hc' as -> ->.
  destruct (H "Gaussian" gaussian Hg) as (anim & Ha & _ & _ & Hl).
  exists anim. split; [exact Ha | exact Hl].
Defined.

(** ** The frame callback *)

(** C1: on every frame [pos] of [0, 100) the highlighted window starts at
    [max(0, pos - 7)] and keeps its width of 15: it is [pos - 7, pos - 7 + 15)
    once [pos >= 7], its start is 0 at frame 0, and nothing bounds its right
    edge, which is 107, beyond the 100 samples of the signal, at frame 99. *)
Theorem visible_window name kernel pos art :
  length kernel = 15%nat → 0 <= pos < 100 →
  rect_width (window_patch art) = 15 →
  ∃ anim art',
    convolution_animation name kernel = Some anim ∧
    length (env_signal (anim_env anim)) = 100%nat ∧
    rect_width (window_patch (anim_artists anim)) = 15 ∧
    animate (anim_env anim) pos art = Some art' ∧
    window_start (anim_env anim) pos = Z.max 0 (pos - 7) ∧
    rect_x (window_patch art') = Z.max 0 (pos - 7) ∧
    rect_width (window_patch art') = 15 ∧
    rect_right (window_patch art') = Z.max 0 (pos - 7) + 15 ∧
    (7 <= pos →
       rect_x (window_patch art') = pos - 7 ∧
       rect_right (window_patch art') = pos - 7 + 15) ∧
    (pos = 0 → rect_x (window_patch art') = 0) ∧
    (pos = 99 → rect_right (window_patch art') = 107) ∧
    (92 < pos →
       rect_right (window_patch art') >
         Z.of_nat (length (env_signal (anim_env anim)))).
Proof.
  intros Hlen Hpos Hw.
  destruct (convolution_animation_returns name kernel Hlen)
    as (anim & Ha & He & _ & _ & _ & Hw0).
  destruct (animate_returns _ _ pos He Hpos art) as (pk & c & _ & _ & Hart).
  eexists anim, _. split; [exact Ha |].
  assert (Hsig : length (env_signal (anim_env anim)) = 100%nat)
    by (destruct He as (-> & _); by rewrite impulses_length).
  split; [exact Hsig |]. split; [exact Hw0 |]. split; [exact Hart |].
  split; [by eapply window_start_eq |].
  unfold rect_right. simpl. rewrite Hw, Hsig. lia.
Qed.

Lemma visible_window_last_frame :
  ∃ anim art',
    convolution_animation "Boxcar (Uniform)" boxcar = Some anim ∧
    animate (anim_env anim) 99
      (mkArtists (mkLine2D [] []) (mkRectangle 0 (- (2 / 10)) 15 (17 / 10))
                 (mkLine2D [] []) (mkLine2D [] [])) = Some art' ∧
    rect_x (window_patch art') = 92 ∧
    rect_right (window_patch art') = 107.
Proof.
  destruct (visible_window "Boxcar (Uniform)" boxcar 99
              (mkArtists (mkLine2D [] [])
                 (mkRectangle 0 (- (2 / 10)) 15 (17 / 10))
                 (mkLine2D [] []) (mkLine2D [] [])))
    as (anim & art' & Ha & _ & _ & Hart & _ & Hx & _ & _ & _ & _ & Hr & _);
    [reflexivity | lia | reflexivity |].
  exists anim, art'. split; [exact Ha |]. split; [exact Hart |].
  split; [exact Hx | by apply Hr].
Defined.

(** C2: on every frame [pos] of [0, 100) the positioned kernel is built, is
    as long as the Signal (100), reads the reversed kernel laid out from
    [pos - 7] at every index of the clamped window
    [max(0, pos - 7), min(100, pos + 8)), that is tap [pos + 7 - i] of the
    kernel at index [i], and is zero at every index outside that window. *)
Theorem positioned_kernel_layout name kernel pos :
  length kernel = 15%nat → 0 <= pos < 100 →
  ∃ anim pk,
    convolution_animation name kernel = Some anim ∧
    positioned_kernel (anim_env anim) pos = Some pk ∧
    length pk = length (env_signal (anim_env anim)) ∧
    length pk = 100%nat ∧
    kernel_start (anim_env anim) pos = Z.max 0 (pos - 7) ∧
    kernel_end (anim_env anim) pos = Z.min 100 (pos + 8) ∧
    ∀ i, 0 <= i < 100 →
      if decide (Z.max 0 (pos - 7) <= i < Z.min 100 (pos + 8))
      then is_Some (getitem pk i) ∧
           getitem pk i = getitem (np.flip kernel) (i - (pos - 7)) ∧
           getitem pk i = getitem kernel (pos + 7 - i)
      else getitem pk i = Some 0%R.
Proof.
  intros Hlen Hpos.
  destruct (convolution_animation_returns name kernel Hlen)
    as (anim & Ha & He & _).
  pose proof (positioned_kernel_eq _ _ pos He Hpos) as Hpk.
  pose proof (positioned_kernel_length _ _ pos He Hpos _ Hpk) as Hl.
  pose proof (kernel_start_eq _ _ pos He) as Hks.
  pose proof (kernel_end_eq _ _ pos He) as Hke.
  eexists anim, _. split; [exact Ha |]. split; [exact Hpk |].
  split.
  { rewrite Hl. destruct He as (-> & _). by rewrite impulses_length. }
  split; [exact Hl |]. split; [exact Hks |]. split; [exact Hke |].
  intros i Hi.
  rewrite (positioned_kernel_getitem _ _ pos He Hpos _ i Hpk Hi), Hks, Hke.
  case_decide as Hin; [| done].
  rewrite getitem_flip by lia. rewrite Hlen.
  replace (Z.of_nat 15 - 1 - (i - (pos - 7))) with (pos + 7 - i) by lia.
  split; [apply getitem_is_Some; lia | done].
Qed.

Lemma positioned_kernel_layout_frame_3 :
  ∃ anim pk,
    convolution_animation "Gaussian" gaussian = Some anim ∧
    positioned_kernel (anim_env anim) 3 = Some pk ∧
    length pk = 100%nat ∧
    getitem pk 0 = getitem gaussian 10 ∧
    getitem pk 11 = Some 0%R.
Proof.
  destruct (positioned_kernel_layout "Gaussian" gaussian 3)
    as (anim & pk & Ha & Hpk & _ & Hl & _ & _ & H); [reflexivity | lia |].
  exists anim, pk. split; [exact Ha |]. split; [exact Hpk |].
  split; [exact Hl |]. split.
  - exact (proj2 (proj2 (H 0 ltac:(lia)))).
  - exact (H 11 ltac:(lia)).
Defined.

(** C9: on every frame [pos] of [0, 100) every index the callback computes
    is in bounds: [0 <= kernel_start <= kernel_end <= 100],
    [0 <= k_start <= k_end <= 15] with both slices of one length, and the
    convolution, of length 100, is read at [pos]; so the callback returns on
    each frame, and a whole pass over [range(100)] runs to its end. *)
Theorem animate_in_bounds name kernel pos art :
  length kernel = 15%nat → 0 <= pos < 100 →
  ∃ anim,
    convolution_animation name kernel = Some anim ∧
    anim_frames anim = range 100 ∧
    0 <= kernel_start (anim_env anim) pos ∧
    kernel_start (anim_env anim) pos <= kernel_end (anim_env anim) pos ∧
    kernel_end (anim_env anim) pos <= 100 ∧
    0 <= k_start (anim_env anim) pos ∧
    k_start (anim_env anim) pos <= k_end (anim_env anim) pos ∧
    k_end (anim_env anim) pos <= 15 ∧
    k_end (anim_env anim) pos - k_start (anim_env anim) pos =
      kernel_end (anim_env anim) pos - kernel_start (anim_env anim) pos ∧
    length (env_convolution (anim_env anim)) = 100%nat ∧
    is_Some (getitem (env_convolution (anim_env anim)) pos) ∧
    is_Some (positioned_kernel (anim_env anim) pos) ∧
    is_Some (animate (anim_env anim) pos art) ∧
    is_Some (play anim).
Proof.
  intros Hlen Hpos.
  destruct (convolution_animation_returns name kernel Hlen)
    as (anim & Ha & He & _ & Hfr & _).
  pose proof (index_bounds _ _ pos He Hpos) as Hb.
  destruct (animate_returns _ _ pos He Hpos art) as (pk & c & Hpk & Hc & Hart).
  exists anim. split; [exact Ha |]. split; [exact Hfr |].
  split_and!; try lia; try by eexists.
  - by destruct He as (_ & _ & _ & _ & ?).
  - unfold play. rewrite Hfr.
    eapply play_frames_total; [exact He | apply range_bounds].
Qed.

Lemma animate_in_bounds_last_frame :
  ∃ anim,
    convolution_animation "Exponential (Calcium-like)" exponential =
      Some anim ∧
    kernel_end (anim_env anim) 99 <= 100 ∧
    k_end (anim_env anim) 99 <= 15 ∧
    is_Some (animate (anim_env anim) 99 (anim_artists anim)) ∧
    is_Some (play anim).
Proof.
  destruct (convolution_animation_returns "Exponential (Calcium-like)"
              exponential) as (anim0 & Ha0 & _); [reflexivity |].
  destruct (animate_in_bounds "Exponential (Calcium-like)" exponential 99
              (anim_artists anim0))
    as (anim & Ha & _ & _ & _ & Hke & _ & _ & Hk & _ & _ & _ & _ & Han & Hp);
    [reflexivity | lia |].
  rewrite Ha0 in Ha. injection Ha as <-.
  exists anim0. split; [exact Ha0 |].
  split; [exact Hke |]. split; [exact Hk |]. split; [exact Han | exact Hp].
Defined.

(** ** The mass of the positioned kernel, kernel by kernel *)

Lemma boxcar_reverse :
  reverse boxcar = replicate 6 0%R ++ replicate 9 (1 / 9)%R.
Proof. rewrite boxcar_eq, reverse_app, !reverse_replicate. done. Qed.

Lemma boxcar_not_pos : ¬ Forall (Rlt 0) boxcar.
Proof.
  rewrite boxcar_eq, Forall_app. intros [_ H].
  apply Forall_cons in H as [H _]. lra.
Qed.

Section mass_cases.
Variables (e : Env) (pos : Z) (pk : list R).
Hypothesis Hpos : 0 <= pos < 100.

Lemma positive_kernel_mass kernel :
  demo_env e kernel → Forall (Rlt 0) kernel → np.sum kernel = 1%R →
  positioned_kernel e pos = Some pk →
  (np.sum pk <= 1)%R ∧ (np.sum pk = 1%R ↔ 7 <= pos <= 92).
Proof.
  intros He Hk Hsum Hpk.
  destruct (frame_mass e kernel pos He Hpos 0 (reverse kernel) pk)
    as [Hle Hiff].
  - reflexivity.
  - by apply Forall_reverse.
  - lia.
  - exact Hsum.
  - exact Hpk.
  - split; [exact Hle |]. rewrite Hiff. lia.
Qed.

Lemma boxcar_mass :
  demo_env e boxcar → positioned_kernel e pos = Some pk →
  (np.sum pk <= 1)%R ∧ (np.sum pk = 1%R ↔ 1 <= pos <= 92).
Proof.
  intros He Hpk.
  destruct (frame_mass e boxcar pos He Hpos 6
              (replicate 9 (1 / 9)%R) pk) as [Hle Hiff].
  - apply boxcar_reverse.
  - apply Forall_replicate. lra.
  - lia.
  - apply boxcar_sum.
  - exact Hpk.
  - split; [exact Hle |]. rewrite Hiff. lia.
Qed.
End mass_cases.

(** C10, as the code has it: on every frame [pos] of [0, 100), for each of
    the three kernels, the positioned kernel has only non-negative entries
    and sums to at most the kernel's sum, 1; it sums to 1 on every frame
    with [7 <= pos <= 92]; for the Gaussian and the exponential kernel on
    exactly those frames; for the boxcar kernel, whose last six taps are
    zero, on exactly the frames with [1 <= pos <= 92]. *)
Theorem positioned_kernel_mass_by_kernel name kernel pos :
  kernel = boxcar ∨ kernel = gaussian ∨ kernel = exponential →
  0 <= pos < 100 →
  ∃ anim pk,
    convolution_animation name kernel = Some anim ∧
    positioned_kernel (anim_env anim) pos = Some pk ∧
    Forall (Rle 0) pk ∧
    np.sum kernel = 1%R ∧
    (np.sum pk <= np.sum kernel)%R ∧
    (7 <= pos <= 92 → np.sum pk = np.sum kernel) ∧
    (kernel = gaussian ∨ kernel = exponential →
       (np.sum pk = np.sum kernel ↔ 7 <= pos <= 92)) ∧
    (kernel = boxcar → (np.sum pk = np.sum kernel ↔ 1 <= pos <= 92)).
Proof.
  intros Hk Hpos.
  assert (Hker : is_kernel kernel).
  { destruct Hk as [-> | [-> | ->]];
      [apply boxcar_is_kernel | apply gaussian_is_kernel
      | apply exponential_is_kernel]. }
  destruct Hker as (Hlen & Hnn & Hsum).
  destruct (convolution_animation_returns name kernel Hlen)
    as (anim & Ha & He & _).
  pose proof (positioned_kernel_eq _ _ pos He Hpos) as Hpk.
  eexists anim, _. split; [exact Ha |]. split; [exact Hpk |].
  split; [by eapply positioned_kernel_nonneg |].
  split; [exact Hsum |]. rewrite Hsum.
  destruct Hk as [-> | Hk].
  - destruct (boxcar_mass _ pos _ Hpos He Hpk) as [Hle Hiff].
    split; [exact Hle |]. split; [intros; apply Hiff; lia |].
    split; [| by intros _].
    intros [Hg | Hx]; exfalso; apply boxcar_not_pos; rewrite ?Hg, ?Hx.
    + apply gaussian_pos.
    + apply exponential_pos.
  - assert (Hp : Forall (Rlt 0) kernel)
      by (destruct Hk as [-> | ->];
          [apply gaussian_pos | apply exponential_pos]).
    destruct (positive_kernel_mass _ pos _ Hpos kernel He Hp Hsum Hpk)
      as [Hle Hiff].
    split; [exact Hle |]. split; [by apply Hiff |].
    split; [by intros _ |].
    intros ->. exfalso. by apply boxcar_not_pos.
Qed.

Lemma positioned_kernel_mass_boxcar_frame_0 :
  ∃ anim pk,
    convolution_animation "Boxcar (Uniform)" boxcar = Some anim ∧
    positioned_kernel (anim_env anim) 0 = Some pk ∧
    np.sum pk ≠ np.sum boxcar.
Proof.
  destruct (positioned_kernel_mass_by_kernel "Boxcar (Uniform)" boxcar 0)
    as (anim & pk & Ha & Hpk & _ & _ & _ & _ & _ & H);
    [by left | lia |].
  exists anim, pk. split; [exact Ha |]. split; [exact Hpk |].
  intros Heq. apply (H eq_refl) in Heq. lia.
Defined.

(** C10, counterexample to "equality exactly when [7 <= pos <= 92]": on
    frame 1 the window [-6, 9) is not inside the signal, yet the positioned
    boxcar kernel still sums to 1, because the taps that fall off the left
    edge are zero. *)
Lemma boxcar_full_mass_at_frame_1 :
  ∃ anim pk,
    convolution_animation "Boxcar (Uniform)" boxcar = Some anim ∧
    positioned_kernel (anim_env anim) 1 = Some pk ∧
    np.sum pk = np.sum boxcar ∧ np.sum boxcar = 1%R ∧
    1 - 7 < 0 ∧ ¬ (np.sum pk = np.sum boxcar ↔ 7 <= 1 <= 92).
Proof.
  destruct (convolution_animation_returns "Boxcar (Uniform)" boxcar)
    as (anim & Ha & He & _); [reflexivity |].
  pose proof (positioned_kernel_eq _ _ 1 He ltac:(lia)) as Hpk.
  eexists anim, _. split; [exact Ha |]. split; [exact Hpk |].
  destruct (boxcar_mass _ 1 _ ltac:(lia) He Hpk) as [_ Hiff].
  assert (Hone : np.sum
            (replicate (Z.to_nat (kernel_start (anim_env anim) 1)) 0%R ++
             take (Z.to_nat (kernel_end (anim_env anim) 1 -
                             kernel_start (anim_env anim) 1))
                  (drop (Z.to_nat (k_start (anim_env anim) 1))
                        (reverse boxcar)) ++
             replicate (Z.to_nat (100 - kernel_end (anim_env anim) 1)) 0%R)
          = 1%R) by (apply Hiff; lia).
  rewrite boxcar_sum, Hone. split; [reflexivity |].
  split; [reflexivity |]. split; [lia |].
  intros [H _]. specialize (H eq_refl). lia.
Qed.

(** ** The command line *)

Lemma parse_loop_choice_fuel (n : nat) argv kernel extras v :
  (length argv ≤ n)%nat →
  (∀ w, kernel = Some w → w ∈ choices) →
  parse_loop argv kernel extras = Namespace v → v ∈ choices.
Proof.
  revert argv kernel extras.
  induction n as [|n IH]; intros argv kernel extras Hn Hk;
    destruct argv as [|tok rest]; simpl in *; try lia.
  - destruct kernel as [w |]; [| done].
    destruct extras; [done |]. intros [= <-]. by apply Hk.
  - destruct kernel as [w |]; [| done].
    destruct extras; [done |]. intros [= <-]. by apply Hk.
  - case_bool_decide; [done |].
    case_bool_decide.
    + destruct rest as [|w rest']; [done |].
      case_bool_decide; [| done].
      apply IH; [simpl in *; lia |]. by intros ? [= <-].
    + destruct (attached tok) as [w |].
      * case_bool_decide; [| done].
        apply IH; [lia |]. by intros ? [= <-].
      * apply IH; [lia | done].
Qed.

Lemma parse_loop_choice argv kernel extras v :
  (∀ w, kernel = Some w → w ∈ choices) →
  parse_loop argv kernel extras = Namespace v → v ∈ choices.
Proof. by apply (parse_loop_choice_fuel (length argv)). Qed.

Lemma parse_args_separate opt v rest :
  opt = "--kernel" ∨ opt = "-k" → v ∉ choices →
  parse_args (opt :: v :: rest) = SystemExit 2.
Proof.
  intros Hopt Hv. unfold parse_args. simpl.
  rewrite bool_decide_eq_false_2 by (destruct Hopt as [-> | ->]; intros [|]; done).
  rewrite bool_decide_eq_true_2 by done.
  by rewrite bool_decide_eq_false_2.
Qed.

Lemma main_shows argv v name kernel signal kernels :
  parse_args argv = Namespace v →
  create_demo_data = Some (signal, kernels) →
  kernel_map !! v = Some name →
  kernels !! name = Some kernel →
  is_Some (convolution_animation name kernel) →
  main argv =
    mkOutcome [EvCreateDemoData; EvConvolutionAnimation name; EvShow] 0.
Proof.
  intros Hparse Hdata Hname Hkernel [anim Hanim].
  unfold main. rewrite Hparse, Hdata, Hname. simpl.
  rewrite Hkernel. simpl. by rewrite Hanim.
Qed.

Lemma main_runs opt v :
  opt = "--kernel" ∨ opt = "-k" → v ∈ choices →
  ∃ name,
    kernel_map !! v = Some name ∧
    main [opt; v] =
      mkOutcome [EvCreateDemoData; EvConvolutionAnimation name; EvShow] 0.
Proof.
  intros Hopt Hv.
  assert (Hparse : parse_args [opt; v] = Namespace v).
  { unfold parse_args. simpl.
    rewrite bool_decide_eq_false_2
      by (destruct Hopt as [-> | ->]; intros [|]; done).
    rewrite bool_decide_eq_true_2 by done.
    by rewrite bool_decide_eq_true_2. }
  destruct create_demo_data_returns as (kernels & Hc & Hb & Hg & He & _).
  unfold choices in Hv.
  repeat (apply elem_of_cons in Hv as [-> | Hv]); [| | | inversion Hv].
  - exists "Boxcar (Uniform)". split; [reflexivity |].
    eapply main_shows; [exact Hparse | exact Hc | reflexivity | exact Hb |].
    destruct (convolution_animation_returns "Boxcar (Uniform)" boxcar)
      as (anim & -> & _); [reflexivity | by eexists].
  - exists "Gaussian". split; [reflexivity |].
    eapply main_shows; [exact Hparse | exact Hc | reflexivity | exact Hg |].
    destruct (convolution_animation_returns "Gaussian" gaussian)
      as (anim & -> & _); [reflexivity | by eexists].
  - exists "Exponential (Calcium-like)". split; [reflexivity |].
    eapply main_shows; [exact Hparse | exact Hc | reflexivity | exact He |].
    destruct (convolution_animation_returns "Exponential (Calcium-like)"
                exponential) as (anim & -> & _); [reflexivity | by eexists].
Qed.

Lemma main_rejected argv :
  (∀ v, parse_args argv ≠ Namespace v) → trace (main argv) = [EvUsage].
Proof.
  intros H. unfold main.
  destruct (parse_args argv) as [v | st]; [by destruct (H v) | done].
Qed.

Lemma main_computes_only_parsed argv ev :
  ev ∈ trace (main argv) → ev ≠ EvUsage →
  ∃ v, v ∈ choices ∧ parse_args argv = Namespace v.
Proof.
  intros Hev Hne. unfold main in Hev.
  destruct (parse_args argv) as [v | st] eqn:Hparse.
  - exists v. split; [| done].
    eapply (parse_loop_choice argv None false); [done | exact Hparse].
  - simpl in Hev. apply list_elem_of_singleton in Hev. done.
Qed.

(** C8: the parser takes a value for the required kernel option exactly
    when it is one of [boxcar], [gaussian], [exponential]; with any other
    value the process prints the usage error and exits with status 2, and
    nothing else happens: the generator, the convolution and the display are
    reached only after the parser returned one of the three values, in which
    case the run goes on to the display and ends with status 0. *)
Theorem cli_kernel_choices :
  (∀ opt v, opt = "--kernel" ∨ opt = "-k" →
     (parse_args [opt; v] = Namespace v ↔
      v = "boxcar" ∨ v = "gaussian" ∨ v = "exponential")) ∧
  (∀ argv v, parse_args argv = Namespace v → v ∈ choices) ∧
  (∀ opt v rest, opt = "--kernel" ∨ opt = "-k" → v ∉ choices →
     main (opt :: v :: rest) = mkOutcome [EvUsage] 2 ∧
     status (main (opt :: v :: rest)) ≠ 0) ∧
  (∀ argv, (∀ v, parse_args argv ≠ Namespace v) →
     trace (main argv) = [EvUsage]) ∧
  (∀ argv ev, ev ∈ trace (main argv) → ev ≠ EvUsage →
     ∃ v, v ∈ choices ∧ parse_args argv = Namespace v) ∧
  (∀ opt v, opt = "--kernel" ∨ opt = "-k" → v ∈ choices →
     ∃ name,
       kernel_map !! v = Some name ∧
       main [opt; v] =
         mkOutcome
           [EvCreateDemoData; EvConvolutionAnimation name; EvShow] 0).
Proof.
  assert (Hsep : ∀ opt v rest, opt = "--kernel" ∨ opt = "-k" → v ∉ choices →
            main (opt :: v :: rest) = mkOutcome [EvUsage] 2).
  { intros opt v rest Hopt Hv. unfold main.
    by rewrite parse_args_separate. }
  split_and!.
  - intros opt v Hopt. split.
    + intros Hp. apply (parse_loop_choice _ None false) in Hp; [| done].
      unfold choices in Hp.
      repeat (apply elem_of_cons in Hp as [Hp | Hp]; [tauto |]).
      inversion Hp.
    + intros Hv.
      assert (Hin : v ∈ choices).
      { unfold choices. rewrite !elem_of_cons. tauto. }
      unfold parse_args. simpl.
      rewrite bool_decide_eq_false_2
        by (destruct Hopt as [-> | ->]; intros [|]; done).
      rewrite bool_decide_eq_true_2 by done.
      by rewrite bool_decide_eq_true_2.
  - intros argv v. by apply parse_loop_choice.
  - intros opt v rest Hopt Hv. by rewrite Hsep.
  - apply main_rejected.
  - apply main_computes_only_parsed.
  - apply main_runs.
Qed.

Lemma cli_kernel_unknown :
  main ["--kernel"; "unknown"] = mkOutcome [EvUsage] 2 ∧
  status (main ["--kernel"; "unknown"]) ≠ 0.
Proof.
  apply (proj1 (proj2 (proj2 cli_kernel_choices)) "--kernel" "unknown" []).
  - by left.
  - unfold choices. intros H.
    repeat (apply elem_of_cons in H as [H | H]; [discriminate H |]).
    inversion H.
Defined.

(** * Further properties of the code *)

(** ** Finite sums *)

Lemma sum_upto_S n f : sum_upto (S n) f = (sum_upto n f + f n)%R.
Proof.
  unfold sum_upto. rewrite seq_S, fmap_app, sum_app. simpl. lra.
Qed.

Lemma sum_upto_ext n f g :
  (∀ i, (i < n)%nat → f i = g i) → sum_upto n f = sum_upto n g.
Proof.
  induction n as [|n IH]; intros H; [done |].
  rewrite !sum_upto_S, IH by (intros; apply H; lia).
  by rewrite (H n) by lia.
Qed.

Lemma sum_upto_cut n m f :
  (n ≤ m)%nat → (∀ i, (n ≤ i < m)%nat → f i = 0%R) →
  sum_upto m f = sum_upto n f.
Proof.
  intros Hnm. induction m as [|m IH]; intros H.
  - by replace n with 0%nat by lia.
  - destruct (decide (n = S m)) as [-> | Hne]; [done |].
    rewrite sum_upto_S, IH; [| lia | intros; apply H; lia].
    rewrite (H m) by lia. lra.
Qed.

Lemma dot_sum_upto a b :
  length a = length b →
  dot a b = sum_upto (length a) (fun i => nth i a 0 * nth i b 0)%R.
Proof.
  unfold dot, sum_upto. revert b.
  induction a as [|x a IH]; intros [|y b] Hl; simpl in *; try done.
  rewrite <- fmap_S_seq, <- list_fmap_compose. simpl.
  f_equal. rewrite IH by lia. done.
Qed.

Lemma nth_lookup_R (l : list R) i x : l !! i = Some x → nth i l 0%R = x.
Proof. intros H. by rewrite (nth_lookup_Some _ _ _ _ H). Qed.

Lemma convolve_same_lookup a v c p :
  v ≠ [] → (length v ≤ length a)%nat →
  np.convolve_same a v = Some c → (p < length a)%nat →
  c !! p =
    Some (sum_upto (S (length v - 1 - length v / 2 + p))
            (fun m => nth m a 0 *
                      nth (length v - 1 - length v / 2 + p - m) v 0)%R).
Proof.
  intros Hv Hle Hc Hp. unfold np.convolve_same in Hc.
  assert (length v ≠ 0%nat) by (by destruct v).
  rewrite decide_False in Hc by lia.
  rewrite decide_False in Hc by lia. injection Hc as <-.
  pose proof (Nat.Div0.div_le_upper_bound (length v) 2 (length v)).
  rewrite lookup_take_lt, lookup_drop by lia.
  unfold np.convolve_full. rewrite list_lookup_fmap, lookup_seq_lt by lia.
  reflexivity.
Qed.

(** ** Kernels of any length *)

Lemma setslice_is_Some {A} (a : list A) start stop (v : list A) :
  is_Some (setslice a start stop v) ↔
  (length v = slice_hi a stop - slice_lo a start ∨ length v = 1)%nat.
Proof.
  unfold setslice. case_decide as Hl.
  - split; [by left | by eexists].
  - destruct v as [|x [|y v]]; simpl in *.
    + split; [by intros [? [=]] | intros [? | [=]]; lia].
    + split; [by right | by eexists].
    + split; [by intros [? [=]] | intros [? | [=]]; lia].
Qed.

Lemma slice_length {A} (a : list A) s t :
  0 <= s <= Z.of_nat (length a) → 0 <= t →
  length (slice a (Some s) (Some t)) =
    Z.to_nat (Z.min (Z.of_nat (length a)) t - s).
Proof.
  intros Hs Ht. unfold slice, slice_lo, slice_hi, slice_bound. simpl.
  rewrite !decide_False by lia.
  rewrite length_take, length_drop. lia.
Qed.

Lemma setslice_window {A} (a : list A) s t :
  0 <= s <= t → t <= Z.of_nat (length a) →
  (slice_hi a (Some t) - slice_lo a (Some s))%nat = Z.to_nat (t - s).
Proof.
  intros Hs Ht. unfold slice_lo, slice_hi, slice_bound. simpl.
  rewrite !decide_False by lia. lia.
Qed.

Section any_kernel.
Variables (e : Env) (kernel : list R) (pos : Z).
Hypothesis He : run_env e kernel.
Hypothesis Hne : kernel ≠ [].
Hypothesis Hpos : 0 <= pos < 100.

Let n := Z.of_nat (length kernel).
Let h := n / 2.

Lemma any_kernel_bounds :
  0 < n ∧ 0 <= h ∧ 2 * h <= n <= 2 * h + 1 ∧
  kernel_start e pos = Z.max 0 (pos - h) ∧
  kernel_end e pos = Z.min 100 (pos + h + 1) ∧
  k_start e pos = Z.max 0 (h - pos) ∧
  k_end e pos =
    Z.max 0 (h - pos) + (Z.min 100 (pos + h + 1) - Z.max 0 (pos - h)).
Proof.
  destruct He as (Hsig & Hker & Hs & _).
  assert (0 < n) by (unfold n; destruct kernel; [done | simpl; lia]).
  unfold k_end, k_start, kernel_end, kernel_start.
  rewrite Hs, Hsig, impulses_length. fold n. fold h.
  assert (2 * h <= n <= 2 * h + 1 ∧ 0 <= h)
    by (unfold h; zify; Z.to_euclidean_division_equations; lia).
  lia.
Qed.

(** The callback builds the positioned kernel exactly when the slice of the
    flipped kernel is as long as the window, or has a single element. *)
Lemma positioned_kernel_is_Some :
  is_Some (positioned_kernel e pos) ↔
  Z.min n (k_end e pos) - k_start e pos =
    kernel_end e pos - kernel_start e pos ∨
  Z.min n (k_end e pos) - k_start e pos = 1.
Proof.
  destruct any_kernel_bounds as (Hn & Hh & Hnh & Hks & Hke & Hs & Hk).
  assert (Hb : 0 <= kernel_start e pos <= kernel_end e pos ∧
               kernel_end e pos <= 100 ∧
               0 <= k_start e pos <= n ∧ k_start e pos < k_end e pos)
    by (rewrite Hk, Hs, Hke, Hks; lia).
  clear Hks Hke Hs Hk.
  destruct He as (Hsig & Hker & _).
  unfold positioned_kernel. rewrite decide_True by lia.
  rewrite setslice_is_Some. unfold np.zeros_like, np.flip.
  rewrite Hsig, Hker.
  rewrite slice_length by (rewrite ?length_reverse; fold n; lia).
  rewrite setslice_window
    by (rewrite ?length_replicate, ?impulses_length; lia).
  rewrite length_reverse. fold n.
  generalize dependent (k_end e pos). generalize dependent (k_start e pos).
  generalize dependent (kernel_end e pos).
  generalize dependent (kernel_start e pos).
  clear. intros. lia.
Qed.
End any_kernel.

Lemma animate_is_Some e kernel pos art :
  run_env e kernel → 0 <= pos < 100 →
  is_Some (animate e pos art) ↔ is_Some (positioned_kernel e pos).
Proof.
  intros (_ & _ & _ & _ & Hl) Hpos. unfold animate.
  destruct (positioned_kernel e pos) as [pk |]; simpl.
  - destruct (getitem_is_Some (env_convolution e) pos) as [c ->]; [lia |].
    simpl. split; by eexists.
  - split; by intros [? [=]].
Qed.

Lemma play_frames_raises e frames frame art :
  (∀ art', animate e frame art' = None) → frame ∈ frames →
  play_frames e frames art = None.
Proof.
  intros Hf Hin. revert art.
  induction frames as [|f frames IH]; intros art; [inversion Hin |].
  rewrite play_frames_cons.
  destruct (animate e f art) as [art' |] eqn:Ha; simpl; [| done].
  apply elem_of_cons in Hin as [<- | Hin]; [by rewrite Hf in Ha |].
  by apply IH.
Qed.

Lemma play_frames_all e frames art :
  (∀ frame art', frame ∈ frames → is_Some (animate e frame art')) →
  is_Some (play_frames e frames art).
Proof.
  revert art. induction frames as [|f frames IH]; intros art H; [by eexists |].
  rewrite play_frames_cons.
  destruct (H f art) as [art' ->]; [by left |]. simpl.
  apply IH. intros frame art'' Hin. apply H. by right.
Qed.

Lemma animate_rect_width e pos art art' :
  animate e pos art = Some art' →
  rect_width (window_patch art') = rect_width (window_patch art).
Proof.
  unfold animate. intros H.
  destruct (positioned_kernel e pos); simpl in H; [| done].
  destruct (getitem (env_convolution e) pos); simpl in H; [| done].
  by injection H as <-.
Qed.

Lemma odd_kernel_animate e kernel (h : nat) frame art :
  run_env e kernel → length kernel = (2 * h + 1)%nat → 0 <= frame < 100 →
  is_Some (animate e frame art).
Proof.
  intros He Hlen Hfr.
  assert (Hne : kernel ≠ []) by (intros ->; simpl in Hlen; lia).
  rewrite (animate_is_Some _ kernel) by done.
  apply (positioned_kernel_is_Some _ kernel frame He Hne Hfr).
  destruct (any_kernel_bounds _ kernel frame He Hne Hfr)
    as (Hn & Hh & Hnh & Hks & Hke & Hs & Hk).
  rewrite Hk, Hs, Hke, Hks. lia.
Qed.

Lemma even_kernel_animate e kernel (h : nat) frame art :
  run_env e kernel → length kernel = (2 * h)%nat → (1 ≤ h)%nat →
  0 <= frame < 100 →
  is_Some (animate e frame art) ↔
  100 <= frame + Z.of_nat h ∨ (h = 1%nat ∧ frame = 0).
Proof.
  intros He Hlen Hh Hfr.
  assert (Hne : kernel ≠ []) by (intros ->; simpl in Hlen; lia).
  rewrite (animate_is_Some _ kernel) by done.
  rewrite (positioned_kernel_is_Some _ kernel frame He Hne Hfr).
  destruct (any_kernel_bounds _ kernel frame He Hne Hfr)
    as (Hn & Hh' & Hnh & Hks & Hke & Hs & Hk).
  rewrite Hk, Hs, Hke, Hks. lia.
Qed.

(** X9: the set-up raises on the empty kernel, whatever the canvas. On a
    canvas that supports blitting it also raises, in the first frame that
    [FuncAnimation] draws, on the kernels of even length from 4 to 198, and
    it returns on every other kernel; without blitting it returns on every
    non-empty kernel. When it returns, the frames are [range(100)], the
    highlight is as wide as the kernel and the convolution is as long as
    the longer of signal and kernel. *)
Theorem convolution_animation_kernel blit name kernel :
  (kernel = [] → convolution_animation_on blit name kernel = None) ∧
  (kernel ≠ [] →
   (is_Some (convolution_animation_on blit name kernel) ↔
    blit = false ∨ Nat.Odd (length kernel) ∨ length kernel = 2%nat ∨
    (200 ≤ length kernel)%nat)) ∧
  (∀ anim,
     convolution_animation_on blit name kernel = Some anim →
     anim_frames anim = range 100 ∧
     rect_width (window_patch (anim_artists anim)) =
       Z.of_nat (length kernel) ∧
     length (env_convolution (anim_env anim)) =
       (100 `max` length kernel)%nat).
Proof.
  assert (Hnil : kernel = [] → convolution_animation_on blit name kernel = None).
  { intros ->. unfold convolution_animation_on.
    destruct create_demo_data_returns as (kernels & -> & _). reflexivity. }
  split; [exact Hnil |]. split.
  - intros Hne.
    destruct (convolution_animation_on_env name kernel Hne) as (e & He & Heq).
    rewrite Heq. destruct blit.
    + assert (Hsome : ∀ o : option Artists,
                is_Some (art ← o; Some (mkAnimation e art (range 100))) ↔
                is_Some o).
      { intros [art |]; simpl.
        - split; intros _; by eexists.
        - split; intros [? [=]]. }
      rewrite Hsome.
      destruct (Nat.Even_or_Odd (length kernel)) as [[h Hh] | [h Hh]].
      * assert (1 ≤ h)%nat by (destruct kernel; [done | simpl in Hh; lia]).
        rewrite (even_kernel_animate e kernel h) by (done || lia).
        split.
        -- intros [? | [-> _]]; [right; right; right; lia |].
           right; right; left. exact Hh.
        -- intros [? | [[m Hm] | [? | ?]]]; [done | lia | right | left]; lia.
      * split; [intros _; right; left; by exists h |].
        intros _. apply (odd_kernel_animate e kernel h); [done | done | lia].
    + simpl. split; [by left | by eexists].
  - intros anim Ha.
    assert (Hne : kernel ≠ []) by (intros Hk; by rewrite Hnil in Ha).
    destruct (convolution_animation_on_env name kernel Hne) as (e & He & Heq).
    rewrite Heq in Ha.
    assert (Hart : ∃ art, anim = mkAnimation e art (range 100) ∧
              rect_width (window_patch art) = Z.of_nat (length kernel)).
    { destruct blit; simpl in Ha.
      - destruct (animate e 0 (initial_artists kernel)) as [art |] eqn:H0;
          simpl in Ha; [| done].
        injection Ha as <-. exists art. split; [done |].
        by rewrite (animate_rect_width _ _ _ _ H0).
      - injection Ha as <-. exists (initial_artists kernel).
        split; reflexivity. }
    destruct Hart as (art & -> & Hw). simpl.
    split; [done |]. split; [exact Hw |].
    by destruct He as (_ & _ & _ & _ & ?).
Qed.

Lemma convolution_animation_kernel_four_taps :
  ¬ is_Some (convolution_animation_on true "four taps" [1; 1; 1; 1]%R) ∧
  is_Some (convolution_animation_on false "four taps" [1; 1; 1; 1]%R).
Proof.
  split.
  - intros Hs.
    apply (proj1 (proj2 (convolution_animation_kernel true "four taps"
                           [1; 1; 1; 1]%R))) in Hs; [| discriminate].
    destruct Hs as [? | [[m Hm] | [? | ?]]]; simpl in *; try done; lia.
  - apply (proj1 (proj2 (convolution_animation_kernel false "four taps"
                           [1; 1; 1; 1]%R))); [discriminate | by left].
Defined.

Lemma odd_kernel_play e kernel (h : nat) art :
  run_env e kernel → length kernel = (2 * h + 1)%nat →
  is_Some (play_frames e (range 100) art).
Proof.
  intros He Hlen. apply play_frames_all. intros frame art' Hin.
  unfold range in Hin. apply elem_of_seqZ in Hin.
  apply (odd_kernel_animate e kernel h); [done | done | lia].
Qed.

(** X10: with a kernel of odd length, whatever its size, the callback
    returns on every frame and a whole pass runs to its end. *)
Theorem odd_kernel_frames name kernel (h : nat) pos art :
  length kernel = (2 * h + 1)%nat → 0 <= pos < 100 →
  ∃ anim,
    convolution_animation name kernel = Some anim ∧
    is_Some (animate (anim_env anim) pos art) ∧
    is_Some (play anim).
Proof.
  intros Hlen Hpos.
  assert (Hne : kernel ≠ []) by (intros ->; simpl in Hlen; lia).
  destruct (convolution_animation_on_env name kernel Hne) as (e & He & Heq).
  destruct (odd_kernel_animate e kernel h 0 (initial_artists kernel) He Hlen)
    as [art0 H0]; [lia |].
  exists (mkAnimation e art0 (range 100)).
  split; [unfold convolution_animation; by rewrite Heq, H0 |].
  split; [by apply (odd_kernel_animate _ kernel h) |].
  by apply (odd_kernel_play _ kernel h).
Qed.

Lemma odd_kernel_frames_three_taps :
  ∃ anim,
    convolution_animation "three taps" [1; 2; 1]%R = Some anim ∧
    is_Some (animate (anim_env anim) 50 (initial_artists [1; 2; 1]%R)) ∧
    is_Some (play anim).
Proof.
  apply (odd_kernel_frames "three taps" [1; 2; 1]%R 1 50); [reflexivity | lia].
Defined.

(** X11: with a kernel of even length [2 h] the callback raises on every
    frame whose window ends inside the signal ([pos + h < 100]), but for
    the one-element broadcast of a two-tap kernel on frame 0. Without
    blitting the set-up returns and a pass fails (at frame 1 at the latest)
    when [h < 99]. With blitting the set-up itself raises when
    [2 <= h < 100], as frame 0 is drawn in it; for a two-tap kernel it
    returns, the callback then returns on the frames 0 and 99 only, and a
    pass fails. *)
Theorem even_kernel_frames name kernel (h : nat) pos art :
  length kernel = (2 * h)%nat → (1 ≤ h)%nat → 0 <= pos < 100 →
  (∃ anim,
     convolution_animation_on false name kernel = Some anim ∧
     (is_Some (animate (anim_env anim) pos art) ↔
      100 <= pos + Z.of_nat h ∨ (h = 1%nat ∧ pos = 0)) ∧
     (Z.of_nat h < 99 → play anim = None)) ∧
  ((2 ≤ h < 100)%nat → convolution_animation name kernel = None) ∧
  (h = 1%nat →
   ∃ anim,
     convolution_animation name kernel = Some anim ∧
     (is_Some (animate (anim_env anim) pos art) ↔ pos = 0 ∨ pos = 99) ∧
     play anim = None).
Proof.
  intros Hlen Hh Hpos.
  assert (Hne : kernel ≠ []) by (intros ->; simpl in Hlen; lia).
  destruct (convolution_animation_on_env name kernel Hne) as (e & He & Heq).
  assert (Hiff : ∀ frame art', 0 <= frame < 100 →
            is_Some (animate e frame art') ↔
            100 <= frame + Z.of_nat h ∨ (h = 1%nat ∧ frame = 0))
    by (intros; by apply (even_kernel_animate e kernel h)).
  assert (Hplay : ∀ art', Z.of_nat h < 99 →
            play_frames e (range 100) art' = None).
  { intros art0 Hsmall. apply (play_frames_raises _ _ 1).
    - intros art'. destruct (animate e 1 art') eqn:Hart; [| done].
      assert (Hs : is_Some (animate e 1 art')) by by eexists.
      apply Hiff in Hs; lia.
    - unfold range. apply elem_of_seqZ. lia. }
  split_and!.
  - exists (mkAnimation e (initial_artists kernel) (range 100)).
    split; [by rewrite Heq |]. split; [by apply Hiff |].
    intros Hsmall. by apply Hplay.
  - intros Hh2. unfold convolution_animation. rewrite Heq.
    destruct (animate e 0 (initial_artists kernel)) as [art0 |] eqn:H0;
      [| done].
    assert (Hs : is_Some (animate e 0 (initial_artists kernel)))
      by by eexists.
    apply Hiff in Hs; lia.
  - intros ->.
    destruct (proj2 (Hiff 0 (initial_artists kernel) ltac:(lia)))
      as [art0 H0]; [by right |].
    exists (mkAnimation e art0 (range 100)).
    split; [unfold convolution_animation; by rewrite Heq, H0 |].
    split; [rewrite Hiff by done; lia |].
    apply Hplay. lia.
Qed.

Lemma even_kernel_frames_four_taps :
  convolution_animation "four taps" [1; 1; 1; 1]%R = None ∧
  ∃ anim,
    convolution_animation_on false "four taps" [1; 1; 1; 1]%R = Some anim ∧
    ¬ is_Some (animate (anim_env anim) 50
                 (initial_artists [1; 1; 1; 1]%R)) ∧
    play anim = None.
Proof.
  destruct (even_kernel_frames "four taps" [1; 1; 1; 1]%R 2 50
              (initial_artists [1; 1; 1; 1]%R))
    as ((anim & Ha & Hiff & Hplay) & Hnone & _); [reflexivity | lia | lia |].
  split; [apply Hnone; lia |].
  exists anim. split; [exact Ha |]. split.
  - intros Hs. apply Hiff in Hs. lia.
  - apply Hplay. lia.
Defined.

(** ** The overlay and the convolution *)

Lemma nth_lookup_default (l : list R) i : nth i l 0%R = default 0%R (l !! i).
Proof. by rewrite nth_lookup. Qed.

Section overlay.
Variables (e : Env) (kernel : list R) (pos : Z).
Hypothesis He : demo_env e kernel.
Hypothesis Hconv :
  np.convolve_same (env_signal e) kernel = Some (env_convolution e).
Hypothesis Hpos : 0 <= pos < 100.

(** Sample [pos] of the convolution, as a sum over the signal. *)
Lemma convolution_getitem :
  getitem (env_convolution e) pos =
    Some (sum_upto (Z.to_nat pos + 8)
            (fun m => nth m (env_signal e) 0 *
                      nth (Z.to_nat pos + 7 - m) kernel 0)%R).
Proof.
  destruct He as (Hsig & _ & _ & Hlen & Hl).
  rewrite getitem_lookup by lia.
  rewrite (convolve_same_lookup (env_signal e) kernel _ (Z.to_nat pos))
    by (try done; rewrite ?Hsig, ?impulses_length, ?Hlen; try lia;
        by destruct kernel).
  rewrite Hlen. change (15 - 1 - 15 / 2)%nat with 7%nat.
  f_equal. replace (S (7 + Z.to_nat pos)) with (Z.to_nat pos + 8)%nat by lia.
  apply sum_upto_ext. intros i _. do 2 f_equal. lia.
Qed.

(** The positioned kernel, tap by tap. *)
Lemma positioned_kernel_nth pk (i : nat) :
  positioned_kernel e pos = Some pk → (i < 100)%nat →
  nth i pk 0%R =
    if decide (i < Z.to_nat pos + 8)%nat
    then nth (Z.to_nat pos + 7 - i) kernel 0%R else 0%R.
Proof.
  intros Hpk Hi.
  pose proof (positioned_kernel_length e kernel pos He Hpos pk Hpk) as Hl.
  pose proof (positioned_kernel_getitem e kernel pos He Hpos pk (Z.of_nat i)
                Hpk ltac:(lia)) as Hg.
  rewrite getitem_lookup in Hg by lia. rewrite Nat2Z.id in Hg.
  rewrite (kernel_start_eq e kernel pos He),
    (kernel_end_eq e kernel pos He) in Hg.
  destruct He as (_ & _ & _ & Hlen & _).
  rewrite nth_lookup_default, Hg.
  destruct (decide (Z.max 0 (pos - 7) <= Z.of_nat i < Z.min 100 (pos + 8)))
    as [Hin | Hout].
  - rewrite decide_True by lia.
    rewrite getitem_flip, getitem_lookup by lia.
    rewrite nth_lookup_default. do 2 f_equal. lia.
  - simpl. case_decide; [| done].
    symmetry. apply nth_overflow. lia.
Qed.

Lemma overlay_dot pk :
  positioned_kernel e pos = Some pk →
  getitem (env_convolution e) pos = Some (dot (env_signal e) pk).
Proof.
  intros Hpk.
  pose proof (positioned_kernel_length e kernel pos He Hpos pk Hpk) as Hl.
  assert (Hsl : length (env_signal e) = 100%nat)
    by (destruct He as (-> & _); by rewrite impulses_length).
  rewrite convolution_getitem, dot_sum_upto, Hsl by lia. f_equal.
  set (c := ((Z.to_nat pos + 8) `min` 100)%nat).
  rewrite (sum_upto_cut c (Z.to_nat pos + 8)); [| lia |].
  - rewrite (sum_upto_cut c 100); [| lia |].
    + apply sum_upto_ext. intros i Hi.
      rewrite (positioned_kernel_nth pk i Hpk) by lia.
      by rewrite decide_True by lia.
    + intros i Hi. rewrite (positioned_kernel_nth pk i Hpk) by lia.
      rewrite decide_False by lia. lra.
  - intros i Hi. rewrite (nth_overflow (env_signal e)) by lia. lra.
Qed.
End overlay.

Lemma sum_upto_plus n f g :
  sum_upto n (fun i => f i + g i)%R = (sum_upto n f + sum_upto n g)%R.
Proof.
  induction n as [|n IH]; [unfold sum_upto; simpl; lra |].
  rewrite !sum_upto_S, IH. lra.
Qed.

Lemma sum_upto_zero n f : (∀ i, (i < n)%nat → f i = 0%R) → sum_upto n f = 0%R.
Proof.
  intros H. rewrite (sum_upto_cut 0 n f); [done | lia |].
  intros i Hi. apply H. lia.
Qed.

Lemma sum_upto_single n k f :
  (∀ i, (i < n)%nat → i ≠ k → f i = 0%R) →
  sum_upto n f = if decide (k < n)%nat then f k else 0%R.
Proof.
  intros H. induction n as [|n IH]; [done |].
  rewrite sum_upto_S, IH by (intros; apply H; lia).
  destruct (decide (k = n)) as [-> | Hne].
  - rewrite decide_False, decide_True by lia. lra.
  - rewrite (H n) by lia. repeat case_decide; try lia; lra.
Qed.



(** Summing a function against the indicator of a duplicate-free index
    list picks its values at the indices below the bound. *)
Lemma sum_upto_indicator (S : list Z) n g :
  NoDup S → Forall (fun s => 0 <= s) S →
  sum_upto n (fun m => (if decide (Z.of_nat m ∈ S) then 1 else 0) * g m)%R =
  np.sum ((fun s => if decide (s < Z.of_nat n) then g (Z.to_nat s) else 0%R)
            <$> S).
Proof.
  induction 1 as [|s S Hs _ IH]; intros Hnn.
  - cbn [fmap list_fmap np.sum foldr]. apply sum_upto_zero. intros i _.
    rewrite decide_False by apply not_elem_of_nil. lra.
  - apply Forall_cons in Hnn as [Hs0 Hnn].
    cbn [fmap list_fmap np.sum foldr].
    change (foldr Rplus 0%R ?l) with (np.sum l). rewrite <- IH by done.
    assert (Hone :
      (if decide (s < Z.of_nat n) then g (Z.to_nat s) else 0%R) =
      sum_upto n (fun m => if decide (m = Z.to_nat s) then g m else 0%R)).
    { rewrite (sum_upto_single n (Z.to_nat s))
        by (intros i _ Hne; by rewrite decide_False).
      rewrite (decide_True (P := Z.to_nat s = Z.to_nat s)) by done.
      destruct (decide (s < Z.of_nat n)).
      - by rewrite decide_True by lia.
      - by rewrite decide_False by lia. }
    rewrite Hone, <- sum_upto_plus.
    apply sum_upto_ext. intros i _.
    destruct (decide (i = Z.to_nat s)) as [-> | Hne].
    + rewrite Z2Nat.id by done.
      rewrite (decide_True (P := s ∈ s :: S)) by apply list_elem_of_here.
      rewrite (decide_False (P := s ∈ S)) by done. lra.
    + destruct (decide (Z.of_nat i ∈ S)) as [Hin | Hout].
      * rewrite decide_True by (by apply list_elem_of_further). lra.
      * rewrite decide_False; [lra |].
        intros [? | ?]%elem_of_cons; [lia | done].
Qed.

(** ** The convolution as a superposition of kernels *)

Lemma spike_positions_NoDup : NoDup spike_positions.
Proof. apply (bool_decide_unpack (NoDup spike_positions)). by vm_compute. Qed.

Lemma spike_positions_range : Forall (fun s => 7 <= s <= 92) spike_positions.
Proof. repeat constructor; lia. Qed.

Lemma signal_nth m :
  nth m (impulses 100 spike_positions) 0%R =
    if decide (Z.of_nat m ∈ spike_positions) then 1%R else 0%R.
Proof.
  destruct (decide (m < 100)%nat) as [Hlt | Hge].
  - rewrite nth_lookup_default. unfold impulses.
    rewrite list_lookup_fmap, lookup_seqZ_lt by lia. simpl.
    by rewrite Z.add_0_l.
  - rewrite nth_overflow by (rewrite impulses_length; lia).
    rewrite decide_False; [done |]. intros Hin.
    pose proof spike_positions_range as Hr.
    rewrite Forall_forall in Hr. apply Hr in Hin. lia.
Qed.


Section superposition.
Variables (e : Env) (kernel : list R).
Hypothesis He : demo_env e kernel.
Hypothesis Hconv :
  np.convolve_same (env_signal e) kernel = Some (env_convolution e).

Lemma convolution_superposition pos :
  0 <= pos < 100 →
  getitem (env_convolution e) pos =
    Some (np.sum ((fun s => tap kernel (pos + 7 - s)) <$> spike_positions)).
Proof.
  intros Hpos. rewrite (convolution_getitem e kernel pos He Hconv Hpos).
  f_equal. destruct He as (-> & _).
  rewrite (sum_upto_ext _ _
             (fun m => (if decide (Z.of_nat m ∈ spike_positions)
                        then 1 else 0) *
                       nth (Z.to_nat pos + 7 - m) kernel 0)%R)
    by (intros i _; by rewrite signal_nth).
  rewrite sum_upto_indicator.
  - f_equal. apply Forall_fmap_ext.
    eapply Forall_impl; [apply spike_positions_range |].
    intros s Hs. simpl in Hs |- *. unfold tap.
    destruct (decide (s < Z.of_nat (Z.to_nat pos + 8))).
    + rewrite decide_True by lia. f_equal. lia.
    + by rewrite decide_False by lia.
  - apply spike_positions_NoDup.
  - eapply Forall_impl; [apply spike_positions_range |]. simpl. lia.
Qed.


End superposition.

Lemma dot_bounds a b :
  Forall (fun x => 0 <= x <= 1)%R a → Forall (Rle 0) b →
  (0 <= dot a b <= np.sum b)%R.
Proof.
  unfold dot. intros Ha. revert b.
  induction Ha as [|x a Hx _ IH]; intros b Hb.
  - simpl. pose proof (sum_nonneg b Hb). lra.
  - destruct Hb as [|y b Hy Hb]; simpl; [lra |].
    specialize (IH b Hb). nra.
Qed.

Lemma impulses_unit n idx : Forall (fun x => 0 <= x <= 1)%R (impulses n idx).
Proof.
  unfold impulses. apply Forall_fmap, Forall_true. intros i. simpl.
  case_decide; lra.
Qed.


Lemma sum_slice_le l m n :
  Forall (Rle 0) l → (np.sum (take n (drop m l)) <= np.sum l)%R.
Proof.
  intros Hl. rewrite (sum_window l m n).
  pose proof (sum_nonneg (take m l) (Forall_take _ _ _ Hl)).
  pose proof (sum_nonneg (drop (m + n) l) (Forall_drop _ _ _ Hl)).
  lra.
Qed.

(** X1: the point the callback marks on frame [pos] is the dot product of
    the signal with the positioned kernel it draws on that frame. *)
Theorem overlay_weights_current_point name kernel pos art :
  length kernel = 15%nat → 0 <= pos < 100 →
  ∃ anim pk art',
    convolution_animation name kernel = Some anim ∧
    positioned_kernel (anim_env anim) pos = Some pk ∧
    animate (anim_env anim) pos art = Some art' ∧
    getitem (env_convolution (anim_env anim)) pos =
      Some (dot (env_signal (anim_env anim)) pk) ∧
    ydata (current_point art') = [dot (env_signal (anim_env anim)) pk] ∧
    ydata (kernel_line art') = np.mul pk (12 / 10).
Proof.
  intros Hlen Hpos.
  destruct (convolution_animation_returns name kernel Hlen)
    as (anim & Ha & He & Hconv & _).
  destruct (animate_returns _ _ pos He Hpos art) as (pk & c & Hpk & Hc & Hart).
  pose proof (overlay_dot _ _ pos He Hconv Hpos pk Hpk) as Hdot.
  exists anim, pk. eexists. split; [exact Ha |]. split; [exact Hpk |].
  split; [exact Hart |]. split; [exact Hdot |]. simpl.
  rewrite Hdot in Hc. injection Hc as <-. done.
Qed.

Lemma overlay_weights_current_point_gaussian :
  ∃ anim pk,
    convolution_animation "Gaussian" gaussian = Some anim ∧
    positioned_kernel (anim_env anim) 50 = Some pk ∧
    getitem (env_convolution (anim_env anim)) 50 =
      Some (dot (env_signal (anim_env anim)) pk).
Proof.
  destruct (overlay_weights_current_point "Gaussian" gaussian 50
              (initial_artists gaussian))
    as (anim & pk & art' & Ha & Hpk & _ & Hdot & _); [reflexivity | lia |].
  exists anim, pk. split; [exact Ha |]. split; [exact Hpk | exact Hdot].
Defined.

(** X2: for a kernel without negative taps every sample of the convolution
    lies between 0 and the sum of the kernel. *)
Theorem convolution_within_kernel_sum name kernel pos :
  length kernel = 15%nat → Forall (Rle 0) kernel → 0 <= pos < 100 →
  ∃ anim c,
    convolution_animation name kernel = Some anim ∧
    getitem (env_convolution (anim_env anim)) pos = Some c ∧
    (0 <= c <= np.sum kernel)%R.
Proof.
  intros Hlen Hnn Hpos.
  destruct (convolution_animation_returns name kernel Hlen)
    as (anim & Ha & He & Hconv & _).
  pose proof (positioned_kernel_eq _ _ pos He Hpos) as Hpk.
  pose proof (overlay_dot _ _ pos He Hconv Hpos _ Hpk) as Hdot.
  eexists anim, _. split; [exact Ha |]. split; [exact Hdot |].
  pose proof (positioned_kernel_nonneg _ _ pos He Hpos _ Hnn Hpk) as Hpos'.
  pose proof (positioned_kernel_sum _ _ pos He Hpos _ Hpk) as Hsum.
  destruct He as (Hsig & _).
  pose proof (dot_bounds (env_signal (anim_env anim)) _
                ltac:(rewrite Hsig; apply impulses_unit) Hpos') as Hb.
  rewrite Hsum in Hb.
  pose proof (sum_slice_le (reverse kernel)
                (Z.to_nat (k_start (anim_env anim) pos))
                (Z.to_nat (kernel_end (anim_env anim) pos -
                           kernel_start (anim_env anim) pos))
                ltac:(by apply Forall_reverse)) as Hle.
  rewrite sum_reverse in Hle. lra.
Qed.

Lemma convolution_within_kernel_sum_boxcar :
  ∃ anim c,
    convolution_animation "Boxcar (Uniform)" boxcar = Some anim ∧
    getitem (env_convolution (anim_env anim)) 50 = Some c ∧
    (0 <= c <= np.sum boxcar)%R.
Proof.
  apply (convolution_within_kernel_sum "Boxcar (Uniform)" boxcar 50);
    [reflexivity | apply boxcar_nonneg | lia].
Defined.

(** X3: the convolution is the superposition of one copy of the kernel per
    spike: sample [pos] is the sum over the spikes [s] of tap
    [pos + 7 - s]. *)
Theorem convolution_superposes_spikes name kernel pos :
  length kernel = 15%nat → 0 <= pos < 100 →
  ∃ anim,
    convolution_animation name kernel = Some anim ∧
    getitem (env_convolution (anim_env anim)) pos =
      Some (np.sum ((fun s => tap kernel (pos + 7 - s))
                      <$> [15; 35; 75; 48; 50; 52; 85; 87; 88; 90])).
Proof.
  intros Hlen Hpos.
  destruct (convolution_animation_returns name kernel Hlen)
    as (anim & Ha & He & Hconv & _).
  exists anim. split; [exact Ha |].
  exact (convolution_superposition _ _ He Hconv pos Hpos).
Qed.

Lemma convolution_superposes_spikes_gaussian :
  ∃ anim,
    convolution_animation "Gaussian" gaussian = Some anim ∧
    getitem (env_convolution (anim_env anim)) 20 =
      Some (np.sum ((fun s => tap gaussian (20 + 7 - s))
                      <$> [15; 35; 75; 48; 50; 52; 85; 87; 88; 90])).
Proof.
  apply (convolution_superposes_spikes "Gaussian" gaussian 20);
    [reflexivity | lia].
Defined.

(** X4: around the isolated spike at 15 the convolution is a copy of the
    kernel: sample [8 + j] is tap [j], so the response starts seven samples
    before the spike. *)
Theorem isolated_spike_response name kernel pos :
  length kernel = 15%nat → 8 <= pos <= 22 →
  ∃ anim c,
    convolution_animation name kernel = Some anim ∧
    getitem (env_convolution (anim_env anim)) pos = Some c ∧
    getitem kernel (pos - 8) = Some c.
Proof.
  intros Hlen Hpos.
  destruct (convolution_animation_returns name kernel Hlen)
    as (anim & Ha & He & Hconv & _).
  eexists anim, _. split; [exact Ha |].
  split; [exact (convolution_superposition _ _ He Hconv pos ltac:(lia)) |].
  rewrite getitem_lookup by lia.
  unfold spike_positions, single_spikes, burst1, burst2.
  cbn [app fmap list_fmap np.sum foldr]. unfold tap.
  rewrite decide_True by lia. rewrite !decide_False by lia.
  replace (pos + 7 - 15) with (pos - 8) by lia.
  rewrite nth_lookup_default.
  destruct (lookup_lt_is_Some_2 kernel (Z.to_nat (pos - 8)) ltac:(lia))
    as [x ->].
  simpl. f_equal. lra.
Qed.

Lemma isolated_spike_response_exponential :
  ∃ anim c,
    convolution_animation "Exponential (Calcium-like)" exponential =
      Some anim ∧
    getitem (env_convolution (anim_env anim)) 8 = Some c ∧
    getitem exponential (8 - 8) = Some c.
Proof.
  apply (isolated_spike_response "Exponential (Calcium-like)" exponential 8);
    [reflexivity | lia].
Defined.



(** ** Frames do not depend on each other *)

Lemma set_x_set_x x y p : set_x x (set_x y p) = set_x x p.
Proof. reflexivity. Qed.

Lemma animate_window_patch e pos art art' :
  animate e pos art = Some art' →
  window_patch art' = set_x (window_start e pos) (window_patch art).
Proof.
  unfold animate. intros H.
  destruct (positioned_kernel e pos); simpl in H; [| done].
  destruct (getitem (env_convolution e) pos); simpl in H; [| done].
  by injection H as <-.
Qed.

Lemma animate_patch_only e pos art1 art2 :
  set_x 0 (window_patch art1) = set_x 0 (window_patch art2) →
  animate e pos art1 = animate e pos art2.
Proof.
  intros H. unfold animate.
  replace (set_x (window_start e pos) (window_patch art1))
    with (set_x (window_start e pos) (window_patch art2)); [done |].
  rewrite <- (set_x_set_x _ 0 (window_patch art2)), <- H. done.
Qed.

(** X6: a frame does not depend on the frames shown before it: after any
    successful call, the callback on frame [pos] gives what it gives on the
    artists before that call. *)
Theorem animate_forgets_history e pos frame art art1 :
  animate e frame art = Some art1 →
  animate e pos art1 = animate e pos art.
Proof.
  intros H. apply animate_patch_only.
  by rewrite (animate_window_patch _ _ _ _ H).
Qed.

Lemma animate_forgets_history_one_tap :
  animate (mkEnv [1%R] [1%R] 1 [1%R]) 0
    (mkArtists (mkLine2D [0] [(1 * (12 / 10))%R]) (mkRectangle 0 0 1 1)
               (mkLine2D [0] [1%R]) (mkLine2D [0] [1%R])) =
  animate (mkEnv [1%R] [1%R] 1 [1%R]) 0
    (mkArtists (mkLine2D [] []) (mkRectangle 3 0 1 1)
               (mkLine2D [] []) (mkLine2D [] [])).
Proof.
  apply (animate_forgets_history _ 0 0
           (mkArtists (mkLine2D [] []) (mkRectangle 3 0 1 1)
                      (mkLine2D [] []) (mkLine2D [] []))).
  reflexivity.
Defined.

Lemma range_S n : 0 <= n → range (n + 1) = range n ++ [n].
Proof.
  intros Hn. unfold range. by rewrite seqZ_app by lia.
Qed.

Lemma play_frames_app e frames1 frames2 art :
  play_frames e (frames1 ++ frames2) art =
    art' ← play_frames e frames1 art; play_frames e frames2 art'.
Proof.
  revert art. induction frames1 as [|f frames1 IH]; intros art; [done |].
  simpl app. rewrite !play_frames_cons.
  destruct (animate e f art) as [art1 |]; simpl; [apply IH | done].
Qed.

Lemma play_frames_last e frames frame art :
  is_Some (play_frames e (frames ++ [frame]) art) →
  play_frames e (frames ++ [frame]) art = animate e frame art.
Proof.
  revert art. induction frames as [|f frames IH]; intros art Hs.
  - simpl app in *. rewrite play_frames_cons in *.
    by destruct (animate e frame art).
  - simpl app in *. rewrite play_frames_cons in *.
    destruct (animate e f art) as [art1 |] eqn:Hf; simpl in *;
      [| by destruct Hs].
    rewrite IH by done. by eapply animate_forgets_history.
Qed.

(** X7: with a kernel of odd length a pass over all frames ends in the
    state frame 99 alone produces, and a further pass from that state ends
    in the same state again. *)
Theorem play_ends_in_last_frame name kernel (h : nat) :
  length kernel = (2 * h + 1)%nat →
  ∃ anim art,
    convolution_animation name kernel = Some anim ∧
    play anim = Some art ∧
    animate (anim_env anim) 99 (anim_artists anim) = Some art ∧
    play_frames (anim_env anim) (anim_frames anim) art = Some art.
Proof.
  intros Hlen.
  assert (Hne : kernel ≠ []) by (intros ->; simpl in Hlen; lia).
  destruct (convolution_animation_on_env name kernel Hne) as (e & He & Heq).
  destruct (odd_kernel_animate e kernel h 0 (initial_artists kernel) He Hlen)
    as [art0 H0]; [lia |].
  assert (Hlast : ∀ art1,
            play_frames e (range 100) art1 = animate e 99 art1).
  { intros art1. change 100 with (99 + 1). rewrite range_S by lia.
    apply play_frames_last. rewrite <- range_S by lia.
    by apply (odd_kernel_play _ kernel h). }
  destruct (odd_kernel_animate e kernel h 99 art0 He Hlen)
    as [art H99]; [lia |].
  exists (mkAnimation e art0 (range 100)), art.
  split; [unfold convolution_animation; by rewrite Heq, H0 |].
  unfold play. simpl. rewrite !Hlast.
  split; [exact H99 |]. split; [exact H99 |].
  by rewrite (animate_forgets_history _ 99 99 _ _ H99).
Qed.

Lemma play_ends_in_last_frame_gaussian :
  ∃ anim art,
    convolution_animation "Gaussian" gaussian = Some anim ∧
    play anim = Some art ∧
    animate (anim_env anim) 99 (anim_artists anim) = Some art ∧
    play_frames (anim_env anim) (anim_frames anim) art = Some art.
Proof.
  apply (play_ends_in_last_frame "Gaussian" gaussian 7). reflexivity.
Defined.

Lemma slice_prefix_length {A} (a : list A) t :
  0 <= t <= Z.of_nat (length a) → length (slice a None (Some t)) = Z.to_nat t.
Proof.
  intros Ht. unfold slice, slice_lo, slice_hi, slice_bound. simpl.
  rewrite decide_False by lia. rewrite length_take, length_drop. lia.
Qed.

(** X8: on every frame the data given to each line has as many abscissas as
    ordinates (100 for the kernel, [pos + 1] for the revealed convolution,
    1 for the current point), and the current point is the last ordinate
    of the revealed convolution. *)
Theorem line_data_shapes name kernel pos art :
  length kernel = 15%nat → 0 <= pos < 100 →
  ∃ anim art',
    convolution_animation name kernel = Some anim ∧
    animate (anim_env anim) pos art = Some art' ∧
    length (xdata (kernel_line art')) = 100%nat ∧
    length (ydata (kernel_line art')) = 100%nat ∧
    length (xdata (conv_line art')) = Z.to_nat (pos + 1) ∧
    length (ydata (conv_line art')) = Z.to_nat (pos + 1) ∧
    xdata (current_point art') = [pos] ∧
    last (ydata (conv_line art')) = head (ydata (current_point art')) ∧
    ydata (conv_line art') =
      take (Z.to_nat (pos + 1)) (env_convolution (anim_env anim)).
Proof.
  intros Hlen Hpos.
  destruct (convolution_animation_returns name kernel Hlen)
    as (anim & Ha & He & _).
  destruct (animate_returns _ _ pos He Hpos art) as (pk & c & Hpk & Hc & Hart).
  pose proof (positioned_kernel_length _ _ pos He Hpos pk Hpk) as Hl.
  destruct He as (_ & _ & _ & _ & Hconv).
  eexists anim, _. split; [exact Ha |]. split; [exact Hart |]. simpl.
  assert (Hsl : slice (env_convolution (anim_env anim)) None (Some (pos + 1)) =
                take (Z.to_nat (pos + 1)) (env_convolution (anim_env anim))).
  { unfold slice, slice_lo, slice_hi, slice_bound. simpl.
    rewrite decide_False by lia. rewrite drop_0. f_equal. lia. }
  unfold range, np.mul.
  rewrite !length_seqZ, length_fmap, Hl, Hsl, length_take, Hconv.
  split_and!; try done; try lia.
  rewrite getitem_lookup in Hc by lia.
  rewrite last_lookup, length_take, Hconv.
  replace (Init.Nat.pred (Z.to_nat (pos + 1) `min` 100)) with (Z.to_nat pos)
    by lia.
  rewrite lookup_take_lt by lia. by rewrite Hc.
Qed.

Lemma line_data_shapes_first_frame :
  ∃ anim art',
    convolution_animation "Gaussian" gaussian = Some anim ∧
    animate (anim_env anim) 0 (initial_artists gaussian) = Some art' ∧
    length (ydata (conv_line art')) = 1%nat ∧
    last (ydata (conv_line art')) = head (ydata (current_point art')).
Proof.
  destruct (line_data_shapes "Gaussian" gaussian 0 (initial_artists gaussian))
    as (anim & art' & Ha & Hart & _ & _ & _ & Hl & _ & Hlast & _);
    [reflexivity | lia |].
  exists anim, art'. split; [exact Ha |]. split; [exact Hart |].
  split; [exact Hl | exact Hlast].
Defined.

(** ** The process as a whole *)

Lemma parse_loop_status_fuel (n : nat) argv kernel extras st :
  (length argv ≤ n)%nat →
  parse_loop argv kernel extras = SystemExit st → st = 0 ∨ st = 2.
Proof.
  revert argv kernel extras.
  induction n as [|n IH]; intros argv kernel extras Hn;
    destruct argv as [|tok rest]; simpl in *; try lia.
  - destruct kernel; [destruct extras |]; intros [= <-]; by right.
  - destruct kernel; [destruct extras |]; intros [= <-]; by right.
  - case_bool_decide; [intros [= <-]; by left |].
    case_bool_decide.
    + destruct rest as [|w rest']; [intros [= <-]; by right |].
      case_bool_decide; [| intros [= <-]; by right].
      apply IH. simpl in *. lia.
    + destruct (attached tok) as [w |].
      * case_bool_decide; [| intros [= <-]; by right].
        apply IH. lia.
      * apply IH. lia.
Qed.

Lemma kernel_map_choices v :
  v ∈ choices →
  ∃ name kernel kernels,
    kernel_map !! v = Some name ∧
    create_demo_data = Some (impulses 100 spike_positions, kernels) ∧
    kernels !! name = Some kernel ∧ length kernel = 15%nat.
Proof.
  intros Hv.
  destruct create_demo_data_returns as (kernels & Hc & Hb & Hg & He & _).
  unfold choices in Hv.
  repeat (apply elem_of_cons in Hv as [-> | Hv]); [| | | inversion Hv].
  - exists "Boxcar (Uniform)", boxcar, kernels. by split_and!.
  - exists "Gaussian", gaussian, kernels. by split_and!.
  - exists "Exponential (Calcium-like)", exponential, kernels. by split_and!.
Qed.

(** X12: whatever the arguments, the process ends in one of three ways:
    the help or a usage error printed by the parser (status 0 or 2) with
    nothing computed, or the full run to the display with status 0; no
    selector the parser lets through misses a key of either dictionary. *)
Theorem main_never_raises argv :
  (EvTraceback ∉ trace (main argv)) ∧
  (main argv = mkOutcome [EvUsage] 0 ∨
   main argv = mkOutcome [EvUsage] 2 ∨
   ∃ v name,
     parse_args argv = Namespace v ∧ v ∈ choices ∧
     kernel_map !! v = Some name ∧
     main argv =
       mkOutcome [EvCreateDemoData; EvConvolutionAnimation name; EvShow] 0).
Proof.
  assert (H : main argv = mkOutcome [EvUsage] 0 ∨
              main argv = mkOutcome [EvUsage] 2 ∨
              ∃ v name,
                parse_args argv = Namespace v ∧ v ∈ choices ∧
                kernel_map !! v = Some name ∧
                main argv =
                  mkOutcome
                    [EvCreateDemoData; EvConvolutionAnimation name; EvShow] 0).
  { destruct (parse_args argv) as [v | st] eqn:Hp.
    - right; right.
      assert (Hv : v ∈ choices)
        by (by apply (parse_loop_choice argv None false)).
      destruct (kernel_map_choices v Hv)
        as (name & kernel & kernels & Hname & Hdata & Hk & Hlen).
      exists v, name. split; [done |]. split; [exact Hv |].
      split; [exact Hname |].
      eapply main_shows; [exact Hp | exact Hdata | exact Hname | exact Hk |].
      destruct (convolution_animation_returns name kernel Hlen)
        as (anim & -> & _). by eexists.
    - unfold main. rewrite Hp.
      apply (parse_loop_status_fuel (length argv)) in Hp as [-> | ->];
        [by left | right; by left | done]. }
  split; [| exact H].
  destruct H as [-> | [-> | (v & name & _ & _ & _ & ->)]]; simpl;
    rewrite ?elem_of_cons, elem_of_nil; intros Hin;
    repeat destruct Hin as [Hin | Hin]; done.
Qed.

Lemma attached_no_dash tok : String.prefix "-" tok = false → attached tok = None.
Proof.
  intros H. destruct tok as [|c tok]; [done |].
  cbn [String.prefix] in H. unfold attached. cbn [String.prefix].
  destruct (Ascii.ascii_dec _ c); [by destruct tok | reflexivity].
Qed.

Lemma parse_loop_positional argv kernel :
  Forall (fun tok => String.prefix "-" tok = false) argv →
  argv ≠ [] ∨ kernel = None →
  parse_loop argv kernel true = SystemExit 2 ∧
  (kernel = None → parse_loop argv kernel false = SystemExit 2).
Proof.
  induction 1 as [|tok rest Htok Hrest IH]; intros Hne.
  - destruct Hne as [? | ->]; done.
  - simpl.
    rewrite bool_decide_eq_false_2
      by (intros [-> | ->]; discriminate Htok).
    rewrite bool_decide_eq_false_2
      by (intros [-> | ->]; discriminate Htok).
    rewrite (attached_no_dash tok Htok).
    assert (Hrec : parse_loop rest kernel true = SystemExit 2).
    { destruct rest as [|tok' rest'].
      - simpl. by destruct kernel.
      - apply IH. by left. }
    done.
Qed.

(** X13: the kernel option is required: when no argument starts with a
    dash (in particular with no argument at all) the parser exits with
    status 2 and nothing is computed or shown. *)
Theorem main_requires_kernel argv :
  Forall (fun tok => String.prefix "-" tok = false) argv →
  parse_args argv = SystemExit 2 ∧ main argv = mkOutcome [EvUsage] 2.
Proof.
  intros Hargv.
  assert (Hp : parse_args argv = SystemExit 2).
  { unfold parse_args.
    destruct (parse_loop_positional argv None Hargv) as [_ H]; [by right |].
    by apply H. }
  split; [exact Hp |]. unfold main. by rewrite Hp.
Qed.

Lemma main_requires_kernel_positional :
  main ["boxcar"] = mkOutcome [EvUsage] 2.
Proof.
  apply (main_requires_kernel ["boxcar"]).
  repeat constructor.
Defined.

(** ** The shape of the exponential and Gaussian kernels *)

Lemma exponential_getitem i :
  0 <= i < 15 →
  getitem exponential i =
    Some (exp (- IZR i / 3) /
          np.sum (np.exp (np.div (np.neg (np.arange 15)) 3)))%R.
Proof.
  intros Hi. rewrite getitem_lookup by (rewrite exponential_length; lia).
  unfold exponential, kernel_size. cbv zeta. set (s := np.sum _).
  unfold np.div, np.exp, np.neg, np.arange.
  rewrite !list_lookup_fmap, lookup_seqZ_lt by lia.
  simpl. by replace (0 + Z.of_nat (Z.to_nat i)) with i by lia.
Qed.

(** X14: the exponential kernel decays geometrically: each tap is the one
    before it times [exp(-1/3)], hence positive and strictly smaller. *)
Theorem exponential_decays i :
  0 <= i < 14 →
  ∃ a b,
    getitem exponential i = Some a ∧
    getitem exponential (i + 1) = Some b ∧
    b = (a * exp (- (1 / 3)))%R ∧ (0 < b < a)%R.
Proof.
  intros Hi. eexists _, _.
  split; [by apply exponential_getitem; lia |].
  split; [by apply exponential_getitem; lia |].
  set (s := np.sum _).
  assert (Hs : (0 < s)%R)
    by (apply sum_pos; [apply exp_all_pos | discriminate]).
  assert (Hstep : exp (- IZR (i + 1) / 3) =
                  (exp (- IZR i / 3) * exp (- (1 / 3)))%R).
  { replace (- IZR (i + 1) / 3)%R with (- IZR i / 3 + - (1 / 3))%R
      by (rewrite plus_IZR; lra).
    apply exp_plus. }
  pose proof (exp_pos (- IZR i / 3)) as Ha.
  pose proof (exp_pos (- (1 / 3))) as Hq.
  assert (Hq1 : (exp (- (1 / 3)) < 1)%R).
  { pose proof (exp_increasing (- (1 / 3)) 0 ltac:(lra)) as H.
    by rewrite exp_0 in H. }
  rewrite Hstep. split; [by field; lra |].
  assert (Hinv : (0 < / s)%R) by by apply Rinv_0_lt_compat.
  unfold Rdiv. split; [by repeat apply Rmult_lt_0_compat |].
  apply Rmult_lt_compat_r; [done |]. nra.
Qed.

Lemma exponential_decays_first :
  ∃ a b,
    getitem exponential 0 = Some a ∧ getitem exponential 1 = Some b ∧
    (b < a)%R.
Proof.
  destruct (exponential_decays 0) as (a & b & Ha & Hb & _ & _ & Hlt); [lia |].
  exists a, b. split; [exact Ha |]. split; [exact Hb | exact Hlt].
Defined.

(** X15: the Gaussian kernel rises strictly up to its centre tap 7, which
    holds [exp(0) = 1] over the normalising sum and is the largest tap. *)
Theorem gaussian_peaks_at_centre i :
  0 <= i < 15 →
  ∃ g c,
    getitem gaussian i = Some g ∧ getitem gaussian 7 = Some c ∧
    c = (1 / np.sum ((fun j => exp (- sample_point j ^ 2)) <$> seqZ 0 15))%R ∧
    (g <= c)%R ∧
    (i < 7 → ∃ g', getitem gaussian (i + 1) = Some g' ∧ (g < g')%R).
Proof.
  intros Hi. eexists _, _.
  split; [by apply gaussian_getitem |].
  split; [by apply gaussian_getitem |].
  set (s := np.sum _).
  assert (Hs : (0 < s)%R)
    by (apply sum_pos; [apply exp_all_pos | discriminate]).
  assert (Hinv : (0 < / s)%R) by by apply Rinv_0_lt_compat.
  assert (H7 : sample_point 7 = 0%R) by (unfold sample_point; lra).
  assert (Hc : exp (- sample_point 7 ^ 2) = 1%R).
  { rewrite H7. replace (- 0 ^ 2)%R with 0%R by lra. apply exp_0. }
  split; [by rewrite Hc |]. split.
  - rewrite Hc. unfold Rdiv. apply Rmult_le_compat_r; [lra |].
    destruct (Req_dec (sample_point i ^ 2) 0) as [-> | Hne].
    + replace (- 0)%R with 0%R by lra. rewrite exp_0. lra.
    + pose proof (pow2_ge_0 (sample_point i)) as Hsq.
      pose proof (exp_increasing (- sample_point i ^ 2) 0 ltac:(lra)) as H.
      rewrite exp_0 in H. lra.
  - intros Hlt. eexists. split; [by apply gaussian_getitem; lia |].
    unfold Rdiv. apply Rmult_lt_compat_r; [done |].
    apply exp_increasing.
    assert (Hi0 : (0 <= IZR i)%R) by (apply IZR_le; lia).
    assert (Hi6 : (IZR i <= 6)%R) by (apply IZR_le; lia).
    unfold sample_point. rewrite plus_IZR. nra.
Qed.

Lemma gaussian_peaks_at_centre_3 :
  ∃ g c,
    getitem gaussian 3 = Some g ∧ getitem gaussian 7 = Some c ∧ (g <= c)%R.
Proof.
  destruct (gaussian_peaks_at_centre 3) as (g & c & Hg & Hc & _ & Hle & _);
    [lia |].
  exists g, c. split; [exact Hg |]. split; [exact Hc | exact Hle].
Defined.
